(** * Board synchronisation: the Authority (server.mjs) and the Replica
      (useRealtimeSync in the client)

    A shallow embedding of the Socket.IO board handlers.  JavaScript objects
    used as dictionaries ([boardState.lanes], [boardState.items], an item, a
    patch payload) are finite maps keyed by property name; arrays of ids are
    lists.  Each handler is a function from the state before the message to
    the state after it, paired with what it emits.

    Property lookup is lookup of own properties: the names every object
    inherits from [Object.prototype] are not keys of these maps.  The clock
    is an argument: [now] stands for what [Date.now()] returns while the
    message is handled. *)

From stdpp Require Import gmap strings list fin_maps pretty.
From Stdlib Require Import ZArith Ascii.

Local Open Scope string_scope.
Local Open Scope Z_scope.

(** ** Data model *)

(** The value of one property of an item.  [BoardItem] declares every
    property as a string, except [routeWaypoints : string[]]. *)
Inductive fieldval :=
| VStr (s : string)
| VArr (l : list string).

#[global] Instance fieldval_eq_dec : EqDecision fieldval.
Proof. solve_decision. Defined.

(** An item, and equally a patch payload: a JS object, property name to
    value. *)
Abbreviation Item := (gmap string fieldval).

(** [boardState]: [{ lanes, items, lastUpdated }]. *)
Record BoardState := mkBoard {
  lanes : gmap string (list string);
  items : gmap string Item;
  lastUpdated : Z
}.

#[global] Instance BoardState_eq_dec : EqDecision BoardState.
Proof. solve_decision. Defined.

(** [item.id].  [BoardItem.id] is declared [string]; a missing property
    reads as [undefined], which is falsy like the empty string, and both are
    the empty string here.  An [id] property of another type is outside the
    declared payload type and is read the same way. *)
Definition item_id (it : Item) : string :=
  match it !! "id" with
  | Some (VStr s) => s
  | _ => EmptyString
  end.

(** The board of a freshly started process; [now] is the reading of
    [Date.now()] at start-up. *)
Definition boardState0 (now : Z) : BoardState :=
  {| lanes := <["Unassigned" := []]> (<["New York" := []]> (<["Curacao" := []]>
              (<["Piarco" := []]> (<["Maiquetia" := []]> ∅))));
     items := ∅;
     lastUpdated := now |}.

(** ** Array and object primitives *)

(** [arr.filter((x) => x !== id)]. *)
Definition without (id : string) (arr : list string) : list string :=
  filter (λ x, x ≠ id) arr.

(** [arr.splice(index, 0, id)] for a numeric [index]: the start position is
    [max (len + index) 0] for a negative index and [min index len] otherwise
    (a fractional index is truncated first; [index] is that integer). *)
Definition splice_start (index : Z) (len : nat) : nat :=
  if index <? 0 then Z.to_nat (Z.max (Z.of_nat len + index) 0)
  else Z.to_nat (Z.min index (Z.of_nat len)).

Definition splice (index : Z) (id : string) (arr : list string) : list string :=
  let start := splice_start index (length arr) in
  take start arr ++ id :: drop start arr.

(** [if (typeof index === 'number') arr.splice(index, 0, id); else
    arr.unshift(id);] *)
Definition insert_at (index : option Z) (id : string) (arr : list string)
  : list string :=
  match index with
  | Some i => splice i id arr
  | None => id :: arr
  end.

(** The loop body [ls[k] = f(ls[k])], where [f] is the [.filter(...)] call. *)
Definition forEach_lane_step (f : list string → list string) (k : string)
    (acc : gmap string (list string)) : gmap string (list string) :=
  match acc !! k with
  | Some arr => <[k := f arr]> acc
  | None => acc
  end.

(** [Object.keys(ls).forEach((k) => { ls[k] = f(ls[k]); })] *)
Definition forEach_lane (f : list string → list string)
    (ls : gmap string (list string)) : gmap string (list string) :=
  foldr (forEach_lane_step f) ls (map_to_list ls).*1.

(** [mtime || Date.now()]: a missing or zero [mtime] is falsy. *)
Definition stamp (mtime : option Z) (now : Z) : Z :=
  match mtime with
  | Some t => if t =? 0 then now else t
  | None => now
  end.

(** Number of occurrences of [id] in an array. *)
Definition occurrences (id : string) (arr : list string) : nat :=
  length (filter (λ x, x = id) arr).

(** ** Messages *)

(** What a handler sends out.  The payload of an [:apply] event carries the
    [mtime] the Authority stored, read back from [boardState.lastUpdated]. *)
Inductive Event :=
| EvBoardState (s : BoardState)
| EvItemAddApply (item : Item) (lane : string) (index : option Z) (mtime : Z)
| EvItemDeleteApply (id : string) (mtime : Z)
| EvItemPatchApply (id : string) (patch : Item) (mtime : Z)
| EvLanesMoveApply (id from to : string) (index : option Z) (mtime : Z).

(** [socket.emit] answers the sender; [socket.broadcast.emit] reaches every
    other connected socket. *)
Inductive Emit :=
| ToSender (e : Event)
| ToOthers (e : Event).

(** What a client sends.  A string property that is missing is the empty
    string (both are falsy); [item] and [patch] are [None] when missing or
    not an object; [index] is [Some] exactly when [typeof index] is
    ['number']; [mtime] is [None] when missing. *)
Inductive Request :=
| BoardPull
| ItemAdd (item : option Item) (lane : string) (index : option Z)
          (mtime : option Z)
| ItemDelete (id : string) (mtime : option Z)
| ItemPatch (id : string) (patch : option Item) (mtime : option Z)
| LanesMove (id from to : string) (index : option Z) (mtime : option Z).

(** ** The Authority: the [io.on('connection')] handlers of server.mjs *)

Module Authority.

(** [socket.on('board:pull', ...)] *)
Definition board_pull (s : BoardState) : BoardState * option Emit :=
  (s, Some (ToSender (EvBoardState s))).

(** [socket.on('item:add', ...)] *)
Definition item_add (now : Z) (item : option Item) (lane : string)
    (index : option Z) (mtime : option Z) (s : BoardState)
  : BoardState * option Emit :=
  match item with
  | None => (s, None)
  | Some it =>
    let id := item_id it in
    if decide (id = EmptyString) then (s, None)
    else if decide (lane = EmptyString) then (s, None)
    else match lanes s !! lane with
         | None => (s, None)
         | Some arr =>
           let items' := <[id := it]> (items s) in
           let laneArr := insert_at index id (without id arr) in
           let lanes' := <[lane := laneArr]> (lanes s) in
           let s' := {| lanes := lanes'; items := items';
                        lastUpdated := stamp mtime now |} in
           (s', Some (ToOthers (EvItemAddApply it lane index (lastUpdated s'))))
         end
  end.

(** [socket.on('item:delete', ...)] *)
Definition item_delete (now : Z) (id : string) (mtime : option Z)
    (s : BoardState) : BoardState * option Emit :=
  if decide (id = EmptyString) then (s, None)
  else match items s !! id with
       | None => (s, None)
       | Some _ =>
         let items' := delete id (items s) in
         let lanes' := forEach_lane (without id) (lanes s) in
         let s' := {| lanes := lanes'; items := items';
                      lastUpdated := stamp mtime now |} in
         (s', Some (ToOthers (EvItemDeleteApply id (lastUpdated s'))))
       end.

(** [socket.on('item:patch', ...)]; [{ ...existing, ...patch }] is the
    union that prefers the properties of [patch]. *)
Definition item_patch (now : Z) (id : string) (patch : option Item)
    (mtime : option Z) (s : BoardState) : BoardState * option Emit :=
  if decide (id = EmptyString) then (s, None)
  else match patch with
       | None => (s, None)
       | Some p =>
         match items s !! id with
         | None => (s, None)
         | Some existing =>
           let s' := {| lanes := lanes s;
                        items := <[id := p ∪ existing]> (items s);
                        lastUpdated := stamp mtime now |} in
           (s', Some (ToOthers (EvItemPatchApply id p (lastUpdated s'))))
         end
       end.

(** [socket.on('lanes:move', ...)]; in [{ ...lanes, [from]: fromArr,
    [to]: toArr }] the later property wins when [from] and [to] are the
    same key. *)
Definition lanes_move (now : Z) (id from to : string) (index : option Z)
    (mtime : option Z) (s : BoardState) : BoardState * option Emit :=
  if decide (id = EmptyString) then (s, None)
  else if decide (from = EmptyString) then (s, None)
  else if decide (to = EmptyString) then (s, None)
  else match lanes s !! from, lanes s !! to with
       | Some fromSrc, Some toSrc =>
         let fromArr := without id fromSrc in
         let toArr := insert_at index id toSrc in
         let s' := {| lanes := <[to := toArr]> (<[from := fromArr]> (lanes s));
                      items := items s;
                      lastUpdated := stamp mtime now |} in
         (s', Some (ToOthers (EvLanesMoveApply id from to index (lastUpdated s'))))
       | _, _ => (s, None)
       end.

(** One message processed to completion; [now] is what [Date.now()]
    returns while it is handled. *)
Definition handle (now : Z) (req : Request) (s : BoardState)
  : BoardState * option Emit :=
  match req with
  | BoardPull => board_pull s
  | ItemAdd item lane index mtime => item_add now item lane index mtime s
  | ItemDelete id mtime => item_delete now id mtime s
  | ItemPatch id patch mtime => item_patch now id patch mtime s
  | LanesMove id from to index mtime => lanes_move now id from to index mtime s
  end.

End Authority.

(** ** The Replica: the handlers of [useRealtimeSync] *)

Module Replica.

(** [socket.on("board:state", ...)]: [setState] is given a value, so the
    previous local state plays no part. *)
Definition board_state (incoming : BoardState) : BoardState :=
  let cleanedLanes :=
    forEach_lane (filter (λ id, is_Some (items incoming !! id)))
                 (lanes incoming) in
  {| lanes := cleanedLanes;
     items := items incoming;
     lastUpdated := lastUpdated incoming |}.

(** [socket.on("item:patch:apply", ...)] *)
Definition item_patch_apply (now : Z) (id : string) (patch : Item)
    (mtime : option Z) (prev : BoardState) : BoardState :=
  match items prev !! id with
  | None => prev
  | Some existing =>
    {| lanes := lanes prev;
       items := <[id := patch ∪ existing]> (items prev);
       lastUpdated := stamp mtime now |}
  end.

(** [socket.on("item:add:apply", ...)]; the new [items] is built before the
    lane is looked up, and dropped with it when the lane is unknown. *)
Definition item_add_apply (now : Z) (item : Item) (lane : string)
    (index : option Z) (mtime : option Z) (prev : BoardState) : BoardState :=
  let id := item_id item in
  let items' := <[id := item]> (items prev) in
  match lanes prev !! lane with
  | None => prev
  | Some arr =>
    let laneArr := insert_at index id (without id arr) in
    {| lanes := <[lane := laneArr]> (lanes prev);
       items := items';
       lastUpdated := stamp mtime now |}
  end.

(** [socket.on("item:delete:apply", ...)] *)
Definition item_delete_apply (now : Z) (id : string) (mtime : option Z)
    (prev : BoardState) : BoardState :=
  match items prev !! id with
  | None => prev
  | Some _ =>
    {| lanes := forEach_lane (without id) (lanes prev);
       items := delete id (items prev);
       lastUpdated := stamp mtime now |}
  end.

(** [socket.on("lanes:move:apply", ...)] *)
Definition lanes_move_apply (now : Z) (id from to : string) (index : option Z)
    (mtime : option Z) (prev : BoardState) : BoardState :=
  match lanes prev !! from, lanes prev !! to with
  | Some fromSrc, Some toSrc =>
    let fromArr := without id fromSrc in
    let toArr := insert_at index id toSrc in
    {| lanes := <[to := toArr]> (<[from := fromArr]> (lanes prev));
       items := items prev;
       lastUpdated := stamp mtime now |}
  | _, _ => prev
  end.

(** One event received from the Authority; [now] is the Replica's own
    clock. *)
Definition apply (now : Z) (ev : Event) (prev : BoardState) : BoardState :=
  match ev with
  | EvBoardState incoming => board_state incoming
  | EvItemAddApply item lane index mtime =>
      item_add_apply now item lane index (Some mtime) prev
  | EvItemDeleteApply id mtime => item_delete_apply now id (Some mtime) prev
  | EvItemPatchApply id patch mtime => item_patch_apply now id patch (Some mtime) prev
  | EvLanesMoveApply id from to index mtime =>
      lanes_move_apply now id from to index (Some mtime) prev
  end.

End Replica.

(** ** The Client: the optimistic updates and the drag handler of [App] *)

Module Client.








Definition sendMove (now : Z) (id from to : string) (index : option Z) : Request :=
  LanesMove id from to index (Some now).

(** [arr.indexOf(x)]: the first position of [x], or [-1]. *)
Fixpoint indexOf_from (x : string) (arr : list string) (i : Z) : Z :=
  match arr with
  | [] => -1
  | y :: rest => if decide (y = x) then i else indexOf_from x rest (i + 1)
  end.

Definition indexOf (x : string) (arr : list string) : Z := indexOf_from x arr 0.

(** [arr.includes(x)] *)
Definition includes (x : string) (arr : list string) : bool :=
  bool_decide (x ∈ arr).

(** [keys.find(pred)] *)
Fixpoint find (pred : string → bool) (keys : list string) : option string :=
  match keys with
  | [] => None
  | k :: rest => if pred k then Some k else find pred rest
  end.

(** What [handleDragEnd] decides to do. *)
Inductive DragOutcome :=
| NoDrop
| Reorder (lane : string) (oldIndex newIndex : Z)
| MoveTo (id from to : string) (index : option Z).

(** [handleDragEnd(event)]: [activeId] is [active.id], [over] is [over.id]
    when there is an [over]; [laneKeys] is [Object.keys(state.lanes)] in
    the order the object enumerates them, and [state.lanes[k]] is read for
    these keys only. *)
Definition handleDragEnd (laneKeys : list string) (state : BoardState)
    (activeId : string) (over : option string) : DragOutcome :=
  match over with
  | None => NoDrop
  | Some overId =>
    let lane_of k := default [] (lanes state !! k) in
    let origin := find (λ l, includes activeId (lane_of l)) laneKeys in
    let overLane :=
      find (λ k, bool_decide (k = overId) || includes overId (lane_of k)) laneKeys in
    match origin, overLane with
    | Some origin, Some overLane =>
      if decide (origin = EmptyString) then NoDrop
      else if decide (overLane = EmptyString) then NoDrop
      else if decide (origin = overLane) then
        let oldIndex := indexOf activeId (lane_of origin) in
        let newIndex :=
          if decide (overId = origin)
          then Z.of_nat (length (lane_of origin)) - 1
          else indexOf overId (lane_of origin) in
        if decide (oldIndex ≠ -1 ∧ newIndex ≠ -1 ∧ oldIndex ≠ newIndex)
        then Reorder origin oldIndex newIndex
        else NoDrop
      else
        let targetIndex :=
          if decide (overId = overLane)
          then Z.of_nat (length (lane_of overLane))
          else indexOf overId (lane_of overLane) in
        MoveTo activeId origin overLane
               (if decide (targetIndex = -1) then None else Some targetIndex)
    | _, _ => NoDrop
    end
  end.

(** What a drag sends to the Authority: [moveItem] ends in [sendMove],
    [reorderInLane] sends nothing. *)
Definition drag_request (now : Z) (outcome : DragOutcome) : option Request :=
  match outcome with
  | MoveTo id from to index => Some (sendMove now id from to index)
  | Reorder _ _ _ => None
  | NoDrop => None
  end.

End Client.

(** ** Sessions and access lists: the HTTP routes of server.mjs *)

Module Access.

(** The profile a session carries; [cid] is always built with [String(..)]. *)
Record Profile := mkProfile {
  cid : string;
  name : string;
  rating : option string;
  pilotRating : option string;
  division : option string
}.

(** A value of [sessions]: [{ user, createdAt }]. *)
Record Session := mkSession {
  user : Profile;
  createdAt : Z
}.

(** The three module-level collections.  A [Set] of strings is the list of
    its members in insertion order, which is what [Array.from] returns. *)
Record Server := mkServer {
  sessions : gmap string Session;
  ACCESS_CIDS : list string;
  ADMIN_CIDS : list string
}.

(** [set.add(x)]: a member keeps its place, a new one goes last. *)
Definition set_add (x : string) (set : list string) : list string :=
  if decide (x ∈ set) then set else (set ++ [x])%list.

(** [set.delete(x)] *)
Definition set_delete (x : string) (set : list string) : list string :=
  filter (λ y, y ≠ x) set.

(** [set.has(x)] *)
Definition set_has (x : string) (set : list string) : bool :=
  bool_decide (x ∈ set).

(** [new Set(arr)] *)
Definition set_of (arr : list string) : list string :=
  foldl (λ set x, set_add x set) [] arr.

(** What [JSON.stringify] is given in [saveAccessToDisk], and what
    [JSON.parse] gives back for such a file. *)
Record AccessFile := mkAccessFile {
  allowed : list string;
  admins : list string
}.

(** What [loadAccessFromDisk] finds: no file; a file that makes
    [readFileSync] or [JSON.parse] throw; or parsed JSON whose [allowed] and
    [admins] are arrays of strings, [None] standing for a property that is
    not an array. *)
Inductive DiskContent :=
| NoFile
| Unreadable
| Parsed (allowed : option (list string)) (admins : option (list string)).

(** The body of a JSON response. *)
Inductive Body :=
| NotAuthenticated
| Error (error : string)
| Me (authorized isManager : bool) (user : Profile) (accessListSize : nat)
| Ok
| Lists (allowed admins : list string).

Record Response := mkResponse {
  status : nat;
  body : Body
}.

(** [saveAccessToDisk()]: the data handed to [writeFileSync]. *)
Definition saveAccessToDisk (st : Server) : AccessFile :=
  {| allowed := ACCESS_CIDS st; admins := ADMIN_CIDS st |}.

(** [arr.forEach((cid) => { if (cid) set.add(String(cid)); })] on a set
    that was cleared first; the empty string is the falsy string. *)
Definition add_truthy (arr : list string) : list string :=
  foldl (λ set c, if decide (c = EmptyString) then set else set_add c set) [] arr.

(** [loadAccessFromDisk()]; [env_allowed] is [DEFAULT_ALLOWED_CIDS]. *)
Definition loadAccessFromDisk (env_allowed : list string) (disk : DiskContent)
    (st : Server) : Server :=
  match disk with
  | NoFile =>
    {| sessions := sessions st;
       ACCESS_CIDS := foldl (λ set c, set_add c set) (ACCESS_CIDS st) env_allowed;
       ADMIN_CIDS := ADMIN_CIDS st |}
  | Unreadable => st
  | Parsed fallowed fadmins =>
    let access :=
      match fallowed with
      | Some arr => add_truthy arr
      | None => ACCESS_CIDS st
      end in
    let admin :=
      match fadmins with
      | Some arr => if decide (0 < length arr)%nat then add_truthy arr
                    else ADMIN_CIDS st
      | None => ADMIN_CIDS st
      end in
    {| sessions := sessions st; ACCESS_CIDS := access; ADMIN_CIDS := admin |}
  end.

(** The process at start-up: empty [sessions] and [ACCESS_CIDS],
    [ADMIN_CIDS = new Set(DEFAULT_ADMIN_CIDS)], then [loadAccessFromDisk()]. *)
Definition startup (env_admins env_allowed : list string) (disk : DiskContent)
  : Server :=
  loadAccessFromDisk env_allowed disk
    {| sessions := ∅; ACCESS_CIDS := []; ADMIN_CIDS := set_of env_admins |}.

(** What a saved file reads back as. *)
Definition on_disk (f : AccessFile) : DiskContent :=
  Parsed (Some (allowed f)) (Some (admins f)).

(** [createSession(user)]; [sid] is the random hex string it draws. *)
Definition createSession (sid : string) (now : Z) (u : Profile) (st : Server)
  : Server :=
  {| sessions := <[sid := {| user := u; createdAt := now |}]> (sessions st);
     ACCESS_CIDS := ACCESS_CIDS st;
     ADMIN_CIDS := ADMIN_CIDS st |}.

(** [getSession(req)]; [cookie] is [req.cookies?.sid]. *)
Definition getSession (cookie : option string) (st : Server) : option Session :=
  match cookie with
  | None => None
  | Some sid => if decide (sid = EmptyString) then None else sessions st !! sid
  end.

(** The end of [/auth/callback] once the profile is fetched: the session is
    created and, if the access list is empty, the user is put on it and the
    lists are saved. *)
Definition login (sid : string) (now : Z) (u : Profile) (st : Server)
  : Server * option AccessFile :=
  let st1 := createSession sid now u st in
  if decide (length (ACCESS_CIDS st1) = 0%nat) then
    let st2 := {| sessions := sessions st1;
                  ACCESS_CIDS := set_add (cid u) (ACCESS_CIDS st1);
                  ADMIN_CIDS := ADMIN_CIDS st1 |} in
    (st2, Some (saveAccessToDisk st2))
  else (st1, None).

(** [app.get('/auth/me', ...)] *)
Definition auth_me (cookie : option string) (st : Server) : Response :=
  match getSession cookie st with
  | None => {| status := 401; body := NotAuthenticated |}
  | Some session =>
    let c := cid (user session) in
    let isManager := set_has c (ADMIN_CIDS st) in
    let isAllowed :=
      bool_decide (length (ACCESS_CIDS st) = 0%nat) || set_has c (ACCESS_CIDS st) in
    {| status := 200;
       body := Me isAllowed isManager (user session) (length (ACCESS_CIDS st)) |}
  end.

(** [app.post('/auth/logout', ...)] *)
Definition auth_logout (cookie : option string) (st : Server) : Server * Response :=
  let st' :=
    match cookie with
    | None => st
    | Some sid =>
      if decide (sid = EmptyString) then st
      else {| sessions := delete sid (sessions st);
              ACCESS_CIDS := ACCESS_CIDS st;
              ADMIN_CIDS := ADMIN_CIDS st |}
    end in
  (st', {| status := 200; body := Ok |}).

(** [app.get('/access', ...)] *)
Definition access_get (cookie : option string) (st : Server) : Response :=
  match getSession cookie st with
  | None => {| status := 401; body := Error "not_authenticated" |}
  | Some session =>
    if set_has (cid (user session)) (ADMIN_CIDS st)
    then {| status := 200; body := Lists (ACCESS_CIDS st) (ADMIN_CIDS st) |}
    else {| status := 403; body := Error "not_admin" |}
  end.

(** The four POST routes differ in the one collection call they make. *)
Inductive Op := AddAccess | RemoveAccess | AddAdmin | RemoveAdmin.

Definition change (op : Op) (c : string) (st : Server) : Server :=
  match op with
  | AddAccess =>
    {| sessions := sessions st; ACCESS_CIDS := set_add c (ACCESS_CIDS st);
       ADMIN_CIDS := ADMIN_CIDS st |}
  | RemoveAccess =>
    {| sessions := sessions st; ACCESS_CIDS := set_delete c (ACCESS_CIDS st);
       ADMIN_CIDS := ADMIN_CIDS st |}
  | AddAdmin =>
    {| sessions := sessions st; ACCESS_CIDS := ACCESS_CIDS st;
       ADMIN_CIDS := set_add c (ADMIN_CIDS st) |}
  | RemoveAdmin =>
    {| sessions := sessions st; ACCESS_CIDS := ACCESS_CIDS st;
       ADMIN_CIDS := set_delete c (ADMIN_CIDS st) |}
  end.

(** [app.post('/access/add' | '/access/remove' | '/access/add-admin' |
    '/access/remove-admin', ...)].  [bodyCid] is [req.body.cid]: [None] when
    it is missing or falsy, otherwise [String(cid)].  The third component is
    what [saveAccessToDisk] writes, when the route gets that far. *)
Definition access_post (op : Op) (cookie : option string)
    (bodyCid : option string) (st : Server)
  : Server * Response * option AccessFile :=
  match getSession cookie st with
  | None => (st, {| status := 401; body := Error "not_authenticated" |}, None)
  | Some session =>
    if set_has (cid (user session)) (ADMIN_CIDS st) then
      match bodyCid with
      | None => (st, {| status := 400; body := Error "cid_required" |}, None)
      | Some c =>
        let st' := change op c st in
        (st', {| status := 200;
                 body := Lists (ACCESS_CIDS st') (ADMIN_CIDS st') |},
         Some (saveAccessToDisk st'))
      end
    else (st, {| status := 403; body := Error "not_admin" |}, None)
  end.

(** A run of POST requests, each with its route, cookie and body [cid]. *)
Definition post_run (reqs : list (Op * option string * option string))
    (st : Server) : Server :=
  foldl (λ acc r, (access_post r.1.1 r.1.2 r.2 acc).1.1) st reqs.

End Access.

(** ** Time labels and input formatting: utils/time.ts and the helpers of
       the client *)

Module TimeUtil.

(** A string is the sequence of its code units; the strings treated here
    are those whose code units are all below 256, one [ascii] each. *)
Definition chars (s : string) : list Ascii.ascii := String.list_ascii_of_string s.
Definition str (cs : list Ascii.ascii) : string := String.string_of_list_ascii cs.

Definition code (c : Ascii.ascii) : Z := Z.of_nat (Ascii.nat_of_ascii c).

(** [\d] and its complement [\D]. *)
Definition is_digit (c : Ascii.ascii) : bool := (48 <=? code c) && (code c <=? 57).

(** White space and line terminators, as [trim] and [Number] skip them:
    TAB, LF, VT, FF, CR, SP and NBSP are the ones below 256. *)
Definition is_space (c : Ascii.ascii) : bool :=
  ((9 <=? code c) && (code c <=? 13)) || (code c =? 32) || (code c =? 160).

Definition digit_val (c : Ascii.ascii) : Z := code c - 48.

(** [s.trim()] *)
Fixpoint trim_start (cs : list Ascii.ascii) : list Ascii.ascii :=
  match cs with
  | c :: rest => if is_space c then trim_start rest else cs
  | [] => []
  end.

Definition trim (s : string) : string :=
  str (reverse (trim_start (reverse (trim_start (chars s))))).

(** [s.slice(i, j)] for [0 <= i <= j]. *)
Definition slice (i j : nat) (s : string) : string :=
  str (take (j - i) (drop i (chars s))).

(** A number as these functions meet it: not-a-number, an integer, or the
    decimal fraction [0.d] with [1 <= d <= 9].  Minus zero is the integer
    zero. *)
Inductive num :=
| NaN
| Whole (z : Z)
| Tenths (d : Z).

(** [Number(s)] for a string of two code units: two digits; one digit with
    white space, a sign or a decimal point beside it; or white space only,
    which reads as 0.  Hexadecimal, binary and octal prefixes, exponents
    and [Infinity] need more than two code units. *)
Definition Number2 (s : string) : num :=
  match chars s with
  | [a; b] =>
    if is_digit a then
      if is_digit b then Whole (10 * digit_val a + digit_val b)
      else if is_space b then Whole (digit_val a)
      else if decide (b = "."%char) then Whole (digit_val a)
      else NaN
    else if is_space a then
      if is_digit b then Whole (digit_val b)
      else if is_space b then Whole 0
      else NaN
    else if decide (a = "+"%char) then
      if is_digit b then Whole (digit_val b) else NaN
    else if decide (a = "-"%char) then
      if is_digit b then Whole (- digit_val b) else NaN
    else if decide (a = "."%char) then
      if is_digit b
      then if decide (digit_val b = 0) then Whole 0 else Tenths (digit_val b)
      else NaN
    else NaN
  | _ => NaN
  end.

(** [x < lo || x > hi] for integer bounds. *)
Definition out_of_range (x : num) (lo hi : Z) : bool :=
  match x with
  | NaN => false
  | Whole z => (z <? lo) || (hi <? z)
  | Tenths _ => (0 <? lo) || (hi <? 1)
  end.

(** What the parsers return besides [null]: an integer number of minutes,
    or the floating-point value of [hh * 60 + mm] when one of the two is a
    decimal fraction, which is kept as the pair it is computed from. *)
Inductive minutes :=
| Minutes (n : Z)
| Float (hh mm : num).

(** The part the two parsers share, from the trimmed string on. *)
Definition minutes_of (trimmed : string) : option minutes :=
  if decide (String.length trimmed ≠ 4%nat) then None
  else
    let hh := Number2 (slice 0 2 trimmed) in
    let mm := Number2 (slice 2 4 trimmed) in
    match hh, mm with
    | NaN, _ | _, NaN => None
    | _, _ =>
      if out_of_range hh 0 23 || out_of_range mm 0 59 then None
      else match hh, mm with
           | Whole h, Whole m => Some (Minutes (h * 60 + m))
           | _, _ => Some (Float hh mm)
           end
    end.

(** [parseHHMM(hhmm)] of utils/time.ts. *)
Definition parseHHMM (hhmm : string) : option minutes :=
  let trimmed := trim hhmm in
  if decide (trimmed = EmptyString) then None else minutes_of trimmed.

(** [parseHHMMToMinutes(hhmm)] of the client. *)
Definition parseHHMMToMinutes (hhmm : string) : option minutes :=
  minutes_of (trim hhmm).





(** [s.padStart(2, "0")] *)
Definition padStart2 (s : string) : string :=
  str (replicate (2 - length (chars s)) "0"%char ++ chars s).

(** [date.getUTCHours()] and [date.getUTCMinutes()] of a valid [Date],
    given by its time value in milliseconds. *)
Definition getUTCHours (t : Z) : Z := (t `div` 3600000) `mod` 24.
Definition getUTCMinutes (t : Z) : Z := (t `div` 60000) `mod` 60.

(** [toHHMM(date)]; [String(n)] of a non-negative integer is its decimal
    numeral. *)
Definition toHHMM (t : Z) : string :=
  String.append (padStart2 (pretty (getUTCHours t)))
                (padStart2 (pretty (getUTCMinutes t))).

(** [digits(s)]: [(s || "").replace(/\D+/g, "")] *)
Definition digits (s : string) : string :=
  str (filter (λ c, is_digit c) (chars s)).

(** [fmtHHMM(input)] *)
Definition fmtHHMM (input : string) : string := slice 0 4 (digits input).

(** [fmtFL(input)] *)
Definition fmtFL (input : string) : string :=
  let d := slice 0 3 (digits input) in
  if decide (d = EmptyString) then EmptyString else String.append "FL" d.

(** [fmtMach(input)] *)
Definition fmtMach (input : string) : string :=
  let d := slice 0 2 (digits input) in
  if decide (d = EmptyString) then EmptyString else String.append "M" d.

#[global] Instance num_eq_dec : EqDecision num.
Proof. solve_decision. Defined.

#[global] Instance minutes_eq_dec : EqDecision minutes.
Proof. solve_decision. Defined.

End TimeUtil.

(** ** A listening Replica beside the Authority *)



(** ** Invariants of the board *)

(** Every id in a lane's list is a key of [items]. *)
Definition lanes_in_items (s : BoardState) : Prop :=
  ∀ l arr id, lanes s !! l = Some arr → id ∈ arr → is_Some (items s !! id).

(** No id is in the lists of two different lanes. *)
Definition lanes_disjoint (s : BoardState) : Prop :=
  ∀ l1 l2 arr1 arr2 id,
    lanes s !! l1 = Some arr1 → lanes s !! l2 = Some arr2 →
    id ∈ arr1 → id ∈ arr2 → l1 = l2.

Definition board_ok (s : BoardState) : Prop :=
  lanes_in_items s ∧ lanes_disjoint s.

(** [id] is in no lane's list other than that of [lane]. *)
Definition only_in_lane (id lane : string) (s : BoardState) : Prop :=
  map_Forall (λ l arr, id ∈ arr → l = lane) (lanes s).

(** ** Requests and reachable boards *)


(** The id a request is about; a pull is about none. *)
Definition req_subject (req : Request) : string :=
  match req with
  | BoardPull => EmptyString
  | ItemAdd (Some it) _ _ _ => item_id it
  | ItemAdd None _ _ _ => EmptyString
  | ItemDelete id _ => id
  | ItemPatch id _ _ => id
  | LanesMove id _ _ _ _ => id
  end.

(** A request is accepted when its handler runs to its emit. *)
Definition accepted (now : Z) (req : Request) (s : BoardState) : Prop :=
  is_Some (Authority.handle now req s).2.

(** The requests under which the lanes stay within [items] and disjoint:
    an add whose id is in no other lane than the one it names, and a move of
    a known id that is in no other lane than [from]. *)
Definition guarded (s : BoardState) (req : Request) : Prop :=
  match req with
  | ItemAdd (Some it) lane _ _ => only_in_lane (item_id it) lane s
  | LanesMove id from _ _ _ => is_Some (items s !! id) ∧ only_in_lane id from s
  | _ => True
  end.




(** ** Sample boards *)

Definition x1 : Item :=
  <["id" := VStr "x1"]> (<["source" := VStr "vatsim"]>
  (<["callsign" := VStr "JBU123"]> (<["altitude" := VStr EmptyString]>
  (<["routeWaypoints" := VArr ["DAWIN"; "SCAPA"]]> ∅)))).

(** A second record under the same id. *)
Definition x1_again : Item :=
  <["id" := VStr "x1"]> (<["source" := VStr "manual"]>
  (<["callsign" := VStr "DAL456"]> ∅)).

Definition t0 : Z := 1700000000000.

(** The start-up board after [add(x1, "Unassigned")]. *)
Definition board_x1 : BoardState :=
  (Authority.handle (t0 + 5) (ItemAdd (Some x1) "Unassigned" None (Some (t0 + 4)))
     (boardState0 t0)).1.



(** [add(x1, "Unassigned")] followed by [move("x1", "Unassigned", "New York", 0)]. *)
Definition board_moved : BoardState :=
  (Authority.handle (t0 + 9)
     (LanesMove "x1" "Unassigned" "New York" (Some 0) (Some (t0 + 8)))
     board_x1).1.

Definition x2 : Item :=
  <["id" := VStr "x2"]> (<["source" := VStr "manual"]>
  (<["callsign" := VStr "AAL9"]> ∅)).

(** [add(x1, "Unassigned")] followed by [add(x2, "Unassigned")]. *)
Definition board_two : BoardState :=
  (Authority.handle (t0 + 9) (ItemAdd (Some x2) "Unassigned" None (Some (t0 + 8)))
     board_x1).1.

(** The lane names in the order of the object literal that declares them. *)
Definition lane_names : list string :=
  ["Unassigned"; "New York"; "Curacao"; "Piarco"; "Maiquetia"].

(** A server with one administrator, one further allowed user and a
    session for each. *)
Definition admin_user : Access.Profile :=
  Access.mkProfile "1000001" "ADA ADMIN" (Some "C1") None None.

Definition plain_user : Access.Profile :=
  Access.mkProfile "1000002" "PAT PILOT" None (Some "P1") None.

Definition sample_server : Access.Server :=
  {| Access.sessions :=
       <["aa11" := Access.mkSession admin_user t0]>
         (<["bb22" := Access.mkSession plain_user t0]> ∅);
     Access.ACCESS_CIDS := ["1000001"];
     Access.ADMIN_CIDS := ["1000001"] |}.

(** ** Deciding the predicates on concrete boards *)

#[global] Instance only_in_lane_dec id lane s : Decision (only_in_lane id lane s).
Proof. unfold only_in_lane. apply _. Defined.

#[global] Instance accepted_dec now req s : Decision (accepted now req s).
Proof. unfold accepted. apply _. Defined.

#[global] Instance guarded_dec s req : Decision (guarded s req).
Proof.
  destruct req as [|[it|] lane index mtime| | |]; cbn [guarded]; apply _.
Defined.

(** Settles a decidable statement about concrete data by evaluation. *)
Ltac by_evaluation :=
  match goal with
  | |- ?P => apply (bool_decide_unpack P); vm_compute; exact I
  end.

(** ** Arrays: filter, splice, unshift *)

Section arrays.
Implicit Types (id x : string) (arr : list string).

Lemma elem_of_without id x arr : x ∈ without id arr ↔ x ∈ arr ∧ x ≠ id.
Proof. unfold without. rewrite list_elem_of_filter. tauto. Qed.

Lemma not_elem_of_without id arr : id ∉ without id arr.
Proof. rewrite elem_of_without. tauto. Qed.

Lemma elem_of_splice i id x arr : x ∈ splice i id arr ↔ x = id ∨ x ∈ arr.
Proof.
  unfold splice. set (n := splice_start i (length arr)).
  assert (x ∈ arr ↔ x ∈ take n arr ∨ x ∈ drop n arr) as ->
    by (by rewrite <- elem_of_app, take_drop).
  rewrite elem_of_app, elem_of_cons. tauto.
Qed.

Lemma elem_of_insert_at index id x arr :
  x ∈ insert_at index id arr ↔ x = id ∨ x ∈ arr.
Proof.
  destruct index as [i|]; simpl.
  - apply elem_of_splice.
  - apply elem_of_cons.
Qed.

Lemma occurrences_app id arr1 arr2 :
  occurrences id (arr1 ++ arr2) = (occurrences id arr1 + occurrences id arr2)%nat.
Proof. unfold occurrences. by rewrite filter_app, length_app. Qed.

Lemma occurrences_cons_eq id arr :
  occurrences id (id :: arr) = S (occurrences id arr).
Proof. unfold occurrences. by rewrite filter_cons_True. Qed.

Lemma occurrences_cons_ne id x arr :
  x ≠ id → occurrences id (x :: arr) = occurrences id arr.
Proof. intros. unfold occurrences. by rewrite filter_cons_False. Qed.

Lemma occurrences_zero id arr : occurrences id arr = 0%nat ↔ id ∉ arr.
Proof.
  induction arr as [|x arr IH].
  - split; [intros _; apply not_elem_of_nil | done].
  - destruct (decide (x = id)) as [->|Hne].
    + rewrite occurrences_cons_eq. split; [done|].
      intros []. apply elem_of_cons. by left.
    + rewrite occurrences_cons_ne, IH, not_elem_of_cons by done.
      split; [intros ?; split; [congruence|done] | tauto].
Qed.

Lemma occurrences_insert_at index id arr :
  occurrences id (insert_at index id arr) = S (occurrences id arr).
Proof.
  destruct index as [i|]; simpl; [|apply occurrences_cons_eq].
  unfold splice. set (n := splice_start i (length arr)).
  assert (occurrences id arr =
          (occurrences id (take n arr) + occurrences id (drop n arr))%nat) as ->
    by (by rewrite <- occurrences_app, take_drop).
  rewrite occurrences_app, occurrences_cons_eq. lia.
Qed.

Lemma occurrences_without id arr : occurrences id (without id arr) = 0%nat.
Proof. apply occurrences_zero, not_elem_of_without. Qed.

End arrays.

(** ** The [forEach] loop over the lanes *)

Section forEach.
Variable f : list string → list string.

Lemma forEach_keys_lookup (ls : gmap string (list string)) ks l :
  NoDup ks →
  foldr (forEach_lane_step f) ls ks !! l = if decide (l ∈ ks) then f <$> ls !! l else ls !! l.
Proof.
  intros Hnd. revert l. induction Hnd as [|k ks Hk Hnd IH]; intros l; cbn [foldr].
  - by rewrite decide_False by apply not_elem_of_nil.
  - unfold forEach_lane_step at 1.
    assert (foldr (forEach_lane_step f) ls ks !! k = ls !! k) as Hacc
      by (by rewrite IH, decide_False).
    rewrite Hacc.
    destruct (decide (l = k)) as [->|Hne].
    + rewrite decide_True by (apply elem_of_cons; by left).
      destruct (ls !! k) as [arr|] eqn:E; cbn [fmap option_fmap option_map].
      * by rewrite lookup_insert_eq.
      * done.
    + assert (foldr (forEach_lane_step f) ls ks !! l =
              if decide (l ∈ k :: ks) then f <$> ls !! l else ls !! l) as Hl.
      { rewrite IH.
        destruct (decide (l ∈ ks)) as [H1|H1], (decide (l ∈ k :: ks)) as [H2|H2];
          try done.
        - destruct H2. apply elem_of_cons. by right.
        - apply elem_of_cons in H2 as [?|?]; done. }
      destruct (ls !! k); [by rewrite lookup_insert_ne|done].
Qed.

Lemma forEach_lane_lookup (ls : gmap string (list string)) l :
  forEach_lane f ls !! l = f <$> ls !! l.
Proof.
  unfold forEach_lane.
  rewrite (forEach_keys_lookup ls _ l (NoDup_fst_map_to_list ls)).
  case_decide as Hin; [done|].
  destruct (ls !! l) as [arr|] eqn:E; [|done].
  exfalso. apply Hin, list_elem_of_fmap.
  exists (l, arr). split; [done|]. by apply elem_of_map_to_list.
Qed.

Lemma forEach_lane_fmap (ls : gmap string (list string)) :
  forEach_lane f ls = f <$> ls.
Proof. apply map_eq. intros l. by rewrite forEach_lane_lookup, lookup_fmap. Qed.

End forEach.

Section preservation.
Import Authority.
Implicit Types (s : BoardState) (id lane from to : string).

Lemma boardState0_ok now : board_ok (boardState0 now).
Proof.
  split.
  - intros l arr id Hl Hin. cbn in Hl.
    repeat (apply lookup_insert_Some in Hl as [[_ <-]|[_ Hl]];
            [by apply not_elem_of_nil in Hin|]).
    by rewrite lookup_empty in Hl.
  - intros l1 l2 arr1 arr2 id Hl1 _ Hin _. cbn in Hl1.
    repeat (apply lookup_insert_Some in Hl1 as [[_ <-]|[_ Hl1]];
            [by apply not_elem_of_nil in Hin|]).
    by rewrite lookup_empty in Hl1.
Qed.

Lemma item_add_ok now it lane index mtime s :
  only_in_lane (item_id it) lane s → board_ok s →
  board_ok (item_add now (Some it) lane index mtime s).1.
Proof.
  intros Honly [Hin Hdis]. unfold item_add.
  repeat case_decide; try done.
  destruct (lanes s !! lane) as [arr|] eqn:Hlane; [|done].
  split.
  - intros l a x Hl Hx. cbn in *.
    destruct (decide (x = item_id it)) as [->|Hne];
      [by rewrite lookup_insert_eq|].
    rewrite lookup_insert_ne by done.
    apply lookup_insert_Some in Hl as [[<- <-]|[_ Hl]]; [|by eapply Hin].
    apply elem_of_insert_at in Hx as [?|Hx]; [done|].
    apply elem_of_without in Hx as [Hx _]. by eapply Hin.
  - intros l1 l2 a1 a2 x Hl1 Hl2 Hx1 Hx2. cbn in *.
    assert (∀ l a, <[lane:=insert_at index (item_id it) (without (item_id it) arr)]>
                     (lanes s) !! l = Some a → x ∈ a →
                   (x = item_id it ∧ l = lane) ∨
                   (x ≠ item_id it ∧ ∃ a', lanes s !! l = Some a' ∧ x ∈ a')) as Hcase.
    { intros l a Hl Hx.
      apply lookup_insert_Some in Hl as [[<- <-]|[Hne Hl]].
      - apply elem_of_insert_at in Hx as [?|Hx]; [by left|].
        apply elem_of_without in Hx as [Hx ?]. right. eauto.
      - destruct (decide (x = item_id it)) as [->|?]; [|right; eauto].
        destruct Hne. symmetry. by eapply Honly. }
    destruct (Hcase _ _ Hl1 Hx1) as [[? ->]|[? (b1 & Hb1 & Hxb1)]],
             (Hcase _ _ Hl2 Hx2) as [[? ->]|[? (b2 & Hb2 & Hxb2)]];
      try done.
    by eapply Hdis.
Qed.

Lemma item_delete_ok now id mtime s :
  board_ok s → board_ok (item_delete now id mtime s).1.
Proof.
  intros [Hin Hdis]. unfold item_delete.
  case_decide; [done|].
  destruct (items s !! id) as [ex|] eqn:Hid; [|done].
  assert (∀ l a x, forEach_lane (without id) (lanes s) !! l = Some a → x ∈ a →
                   x ≠ id ∧ ∃ a', lanes s !! l = Some a' ∧ x ∈ a') as Hcase.
  { intros l a x Hl Hx. rewrite forEach_lane_lookup in Hl.
    destruct (lanes s !! l) as [a'|]; [|done].
    injection Hl as <-. apply elem_of_without in Hx as [? ?]. eauto. }
  split.
  - intros l a x Hl Hx. cbn in *.
    destruct (Hcase _ _ _ Hl Hx) as [Hne (a' & Ha' & Hxa')].
    rewrite lookup_delete_ne by done. by eapply Hin.
  - intros l1 l2 a1 a2 x Hl1 Hl2 Hx1 Hx2. cbn in *.
    destruct (Hcase _ _ _ Hl1 Hx1) as [_ (b1 & Hb1 & Hxb1)],
             (Hcase _ _ _ Hl2 Hx2) as [_ (b2 & Hb2 & Hxb2)].
    by eapply Hdis.
Qed.

Lemma item_patch_ok now id patch mtime s :
  board_ok s → board_ok (item_patch now id patch mtime s).1.
Proof.
  intros [Hin Hdis]. unfold item_patch.
  case_decide; [done|].
  destruct patch as [p|]; [|done].
  destruct (items s !! id) as [ex|] eqn:Hid; [|done].
  split; [|done].
  intros l a x Hl Hx. cbn in *.
  destruct (decide (id = x)) as [->|?];
    [by rewrite lookup_insert_eq|rewrite lookup_insert_ne by done].
  by eapply Hin.
Qed.

Lemma lanes_move_ok now id from to index mtime s :
  is_Some (items s !! id) → only_in_lane id from s → board_ok s →
  board_ok (lanes_move now id from to index mtime s).1.
Proof.
  intros Hid Honly [Hin Hdis]. unfold lanes_move.
  repeat case_decide; try done.
  destruct (lanes s !! from) as [fromSrc|] eqn:Hfrom; [|done].
  destruct (lanes s !! to) as [toSrc|] eqn:Hto; [|done].
  assert (∀ l a x,
            <[to:=insert_at index id toSrc]> (<[from:=without id fromSrc]> (lanes s))
              !! l = Some a → x ∈ a →
            (x = id ∧ l = to) ∨
            (x ≠ id ∧ ∃ a', lanes s !! l = Some a' ∧ x ∈ a')) as Hcase.
  { intros l a x Hl Hx.
    apply lookup_insert_Some in Hl as [[<- <-]|[Hne Hl]].
    - apply elem_of_insert_at in Hx as [?|Hx]; [by left|].
      destruct (decide (x = id)) as [->|?]; [by left|right; eauto].
    - apply lookup_insert_Some in Hl as [[<- <-]|[Hne' Hl]].
      + apply elem_of_without in Hx as [? ?]. right; eauto.
      + destruct (decide (x = id)) as [->|?]; [|right; eauto].
        destruct Hne'. symmetry. by eapply Honly. }
  split.
  - intros l a x Hl Hx. cbn in *.
    destruct (Hcase _ _ _ Hl Hx) as [[-> _]|[_ (a' & Ha' & Hxa')]]; [done|].
    by eapply Hin.
  - intros l1 l2 a1 a2 x Hl1 Hl2 Hx1 Hx2. cbn in *.
    destruct (Hcase _ _ _ Hl1 Hx1) as [[? ->]|[? (b1 & Hb1 & Hxb1)]],
             (Hcase _ _ _ Hl2 Hx2) as [[? ->]|[? (b2 & Hb2 & Hxb2)]];
      try done.
    by eapply Hdis.
Qed.

Lemma handle_ok now req s :
  guarded s req → board_ok s → board_ok (handle now req s).1.
Proof.
  destruct req as [|[it|] lane index mtime|id mtime|id patch mtime
                   |id from to index mtime]; cbn [handle guarded].
  - done.
  - apply item_add_ok.
  - done.
  - intros _. apply item_delete_ok.
  - intros _. apply item_patch_ok.
  - intros [? ?]. by apply lanes_move_ok.
Qed.

End preservation.

(** ** The scenarios of the specification, run on the model *)

Example scenario_add :
  lanes board_x1 !! "Unassigned" = Some ["x1"] ∧
  (items board_x1 !! "x1" ≫= lookup "callsign") = Some (VStr "JBU123").
Proof. split; by vm_compute. Qed.

Example scenario_move :
  lanes board_moved !! "Unassigned" = Some [] ∧
  lanes board_moved !! "New York" = Some ["x1"].
Proof. split; by vm_compute. Qed.

Example splice_positions :
  splice 1 "n" ["a"; "b"; "c"] = ["a"; "n"; "b"; "c"] ∧
  splice 7 "n" ["a"; "b"; "c"] = ["a"; "b"; "c"; "n"] ∧
  splice (-1) "n" ["a"; "b"; "c"] = ["a"; "b"; "n"; "c"] ∧
  splice (-9) "n" ["a"; "b"; "c"] = ["n"; "a"; "b"; "c"].
Proof. repeat split. Qed.

(** ** The claims *)







(** C3 (as amended).  An accepted move between two different lanes, of an
    id that is not yet in the target lane's list, leaves the id absent from
    [from]'s list and exactly once in [to]'s list, and leaves [items] as it
    was. *)
Theorem lanes_move_across now id from to index mtime s s' e :
  Authority.lanes_move now id from to index mtime s = (s', Some e) →
  from ≠ to →
  (∀ arr, lanes s !! to = Some arr → id ∉ arr) →
  ∃ fromArr toArr,
    lanes s' !! from = Some fromArr ∧ (id ∉ fromArr) ∧
    lanes s' !! to = Some toArr ∧ occurrences id toArr = 1%nat ∧
    items s' = items s.
Proof.
  unfold Authority.lanes_move. intros Hmove Hne Hfresh.
  repeat case_decide; try done.
  destruct (lanes s !! from) as [fromSrc|] eqn:Hfrom; [|done].
  destruct (lanes s !! to) as [toSrc|] eqn:Hto; [|done].
  injection Hmove as <- _.
  exists (without id fromSrc), (insert_at index id toSrc). cbn.
  repeat split.
  - rewrite lookup_insert_ne by done. apply lookup_insert_eq.
  - apply not_elem_of_without.
  - apply lookup_insert_eq.
  - rewrite occurrences_insert_at. f_equal.
    apply occurrences_zero. by apply Hfresh.
Qed.

Lemma lanes_move_across_witness :
  ∃ fromArr toArr,
    lanes board_moved !! "Unassigned" = Some fromArr ∧ ("x1" ∉ fromArr) ∧
    lanes board_moved !! "New York" = Some toArr ∧
    occurrences "x1" toArr = 1%nat ∧
    items board_moved = items board_x1.
Proof.
  apply (lanes_move_across (t0 + 9) "x1" "Unassigned" "New York" (Some 0)
           (Some (t0 + 8)) board_x1 board_moved
           (ToOthers
              (EvLanesMoveApply "x1" "Unassigned" "New York" (Some 0) (t0 + 8)))).
  - by vm_compute.
  - done.
  - intros arr Harr. vm_compute in Harr. injection Harr as <-.
    apply not_elem_of_nil.
Defined.

(** C3 (as stated) fails: a move of x1 within Unassigned is accepted and
    leaves x1 twice in the list (and so not absent from [from]'s list), and
    a move into the lane that already holds x1, from another lane, does the
    same. *)
Lemma lanes_move_duplicates :
  (let r := Authority.lanes_move (t0 + 9) "x1" "Unassigned" "Unassigned"
              (Some 0) (Some (t0 + 8)) board_x1 in
   is_Some r.2 ∧ lanes board_x1 !! "Unassigned" = Some ["x1"] ∧
   lanes r.1 !! "Unassigned" = Some ["x1"; "x1"] ∧
   occurrences "x1" ["x1"; "x1"] = 2%nat) ∧
  (let r := Authority.lanes_move (t0 + 9) "x1" "Curacao" "Unassigned"
              None (Some (t0 + 8)) board_x1 in
   is_Some r.2 ∧ lanes r.1 !! "Unassigned" = Some ["x1"; "x1"]).
Proof.
  cbv zeta. repeat split; first [by vm_compute | by_evaluation].
Qed.

(** C4 (as amended).  An accepted patch is a shallow merge: every property
    the payload does not name keeps its value, so [id] and [source] are kept
    whenever the payload leaves them out, as every
    [Partial<BoardItemFields>] payload does; a property the payload names,
    [id] and [source] included, takes the payload's value. *)
Theorem item_patch_merges now id p mtime s s' e existing :
  Authority.item_patch now id (Some p) mtime s = (s', Some e) →
  items s !! id = Some existing →
  ∃ patched,
    items s' !! id = Some patched ∧
    (∀ f, p !! f = None → patched !! f = existing !! f) ∧
    (∀ f v, p !! f = Some v → patched !! f = Some v) ∧
    (p !! "id" = None → item_id patched = item_id existing) ∧
    (∀ j, j ≠ id → items s' !! j = items s !! j) ∧
    lanes s' = lanes s.
Proof.
  unfold Authority.item_patch. intros Hpatch Hex.
  case_decide; [done|]. rewrite Hex in Hpatch. injection Hpatch as <- _.
  exists (p ∪ existing). cbn.
  assert (∀ f, p !! f = None → (p ∪ existing) !! f = existing !! f) as Hkeep.
  { intros f Hf. by rewrite lookup_union_r. }
  repeat split.
  - apply lookup_insert_eq.
  - exact Hkeep.
  - intros f v Hf. by apply lookup_union_Some_l.
  - intros Hid. unfold item_id. by rewrite (Hkeep "id" Hid).
  - intros j Hj. by apply lookup_insert_ne.
Qed.

Lemma item_patch_merges_witness :
  let r := Authority.item_patch (t0 + 9) "x1" (Some {["altitude" := VStr "FL350"]})
             (Some (t0 + 8)) board_x1 in
  ∃ patched,
    items r.1 !! "x1" = Some patched ∧
    (∀ f, ({["altitude" := VStr "FL350"]} : Item) !! f = None →
          patched !! f = x1 !! f) ∧
    patched !! "altitude" = Some (VStr "FL350") ∧
    item_id patched = "x1".
Proof.
  intros r.
  destruct (item_patch_merges (t0 + 9) "x1" {["altitude" := VStr "FL350"]}
              (Some (t0 + 8)) board_x1 r.1
              (ToOthers (EvItemPatchApply "x1" {["altitude" := VStr "FL350"]} (t0 + 8)))
              x1 ltac:(by vm_compute) ltac:(by vm_compute))
    as (patched & Hp & Hkeep & Hset & Hid & _).
  exists patched. split; [exact Hp|]. split; [exact Hkeep|]. split.
  - apply Hset. by vm_compute.
  - rewrite Hid; by vm_compute.
Defined.

(** C4 (as stated) fails: a payload that names [source] and [id] is merged
    like any other, and both properties of the stored record are replaced. *)
Lemma item_patch_replaces_id_source :
  let p : Item := <["source" := VStr "manual"]> {["id" := VStr "zz"]} in
  let r := Authority.item_patch (t0 + 9) "x1" (Some p) (Some (t0 + 8)) board_x1 in
  is_Some r.2 ∧
  (items board_x1 !! "x1" ≫= lookup "source") = Some (VStr "vatsim") ∧
  (items r.1 !! "x1" ≫= lookup "source") = Some (VStr "manual") ∧
  (items board_x1 !! "x1" ≫= lookup "id") = Some (VStr "x1") ∧
  (items r.1 !! "x1" ≫= lookup "id") = Some (VStr "zz").
Proof.
  cbv zeta. repeat split; first [by vm_compute | by_evaluation].
Qed.



(** C6.  A pull leaves the board as it was, answers the sender with that
    board, and a second pull right after it gives the same answer. *)
Theorem board_pull_twice now1 now2 s :
  let r1 := Authority.handle now1 BoardPull s in
  let r2 := Authority.handle now2 BoardPull r1.1 in
  r1.1 = s ∧ r2.1 = s ∧
  r1.2 = Some (ToSender (EvBoardState s)) ∧ r2.2 = r1.2.
Proof. done. Qed.

(** C7.  Two patches of the same property of the same item, applied in
    order: the property ends with the value of the second one, at a Replica
    that holds the item and at the Authority. *)
Theorem patch_last_applied_wins now1 now2 id f v1 v2 (p1 p2 : Item) m1 m2 s :
  p1 !! f = Some v1 → p2 !! f = Some v2 →
  is_Some (items s !! id) →
  (∃ it,
     items (Replica.item_patch_apply now2 id p2 m2
              (Replica.item_patch_apply now1 id p1 m1 s)) !! id = Some it ∧
     it !! f = Some v2) ∧
  (id ≠ EmptyString →
   ∃ it,
     items (Authority.item_patch now2 id (Some p2) m2
              (Authority.item_patch now1 id (Some p1) m1 s).1).1 !! id = Some it ∧
     it !! f = Some v2).
Proof.
  intros _ Hp2 [existing Hex]. split.
  - exists (p2 ∪ (p1 ∪ existing)).
    unfold Replica.item_patch_apply. rewrite Hex. cbn.
    rewrite !lookup_insert_eq. cbn. rewrite lookup_insert_eq.
    split; [done|]. by apply lookup_union_Some_l.
  - intros Hid. exists (p2 ∪ (p1 ∪ existing)).
    unfold Authority.item_patch. rewrite !decide_False by done.
    rewrite Hex. cbn. rewrite !lookup_insert_eq. cbn. rewrite lookup_insert_eq.
    split; [done|]. by apply lookup_union_Some_l.
Qed.

Lemma patch_last_applied_wins_witness :
  let p1 : Item := {["altitude" := VStr "FL300"]} in
  let p2 : Item := {["altitude" := VStr "FL350"]} in
  (∃ it,
     items (Replica.item_patch_apply (t0 + 7) "x1" p2 (Some (t0 + 6))
              (Replica.item_patch_apply (t0 + 6) "x1" p1 (Some (t0 + 5)) board_x1))
       !! "x1" = Some it ∧
     it !! "altitude" = Some (VStr "FL350")) ∧
  (∃ it,
     items (Authority.item_patch (t0 + 7) "x1" (Some p2) (Some (t0 + 6))
              (Authority.item_patch (t0 + 6) "x1" (Some p1) (Some (t0 + 5))
                 board_x1).1).1 !! "x1" = Some it ∧
     it !! "altitude" = Some (VStr "FL350")).
Proof.
  intros p1 p2.
  destruct (patch_last_applied_wins (t0 + 6) (t0 + 7) "x1" "altitude"
              (VStr "FL300") (VStr "FL350") p1 p2 (Some (t0 + 5)) (Some (t0 + 6))
              board_x1 ltac:(by vm_compute) ltac:(by vm_compute)
              ltac:(by_evaluation)) as [Hrep Haut].
  split; [exact Hrep|]. apply Haut. done.
Defined.





(** C10.  An add with a non-empty id into a known lane is accepted, and
    afterwards the id is exactly once in that lane's list, whether or not
    the list held it before. *)
Theorem item_add_once_in_lane now it lane index mtime s :
  item_id it ≠ EmptyString → lane ≠ EmptyString → is_Some (lanes s !! lane) →
  ∃ s' e arr,
    Authority.handle now (ItemAdd (Some it) lane index mtime) s = (s', Some e) ∧
    lanes s' !! lane = Some arr ∧
    occurrences (item_id it) arr = 1%nat.
Proof.
  intros Hid Hlane [src Hsrc]. cbn. unfold Authority.item_add.
  rewrite !decide_False by done. rewrite Hsrc.
  eexists _, _, _. split; [reflexivity|]. cbn. split.
  - apply lookup_insert_eq.
  - by rewrite occurrences_insert_at, occurrences_without.
Qed.

Lemma item_add_once_in_lane_witness :
  ∃ s' e arr,
    Authority.handle (t0 + 9)
      (ItemAdd (Some x1_again) "Unassigned" (Some 3) (Some (t0 + 8))) board_x1
    = (s', Some e) ∧
    lanes s' !! "Unassigned" = Some arr ∧
    occurrences "x1" arr = 1%nat.
Proof.
  apply (item_add_once_in_lane (t0 + 9) x1_again "Unassigned" (Some 3)
           (Some (t0 + 8)) board_x1).
  - by vm_compute.
  - done.
  - by_evaluation.
Defined.

(** ** Further properties of the handlers *)

Section more_arrays.
Implicit Types (id x : string) (arr : list string).

Lemma without_not_in id arr : id ∉ arr → without id arr = arr.
Proof.
  intros Hid. unfold without. induction arr as [|x arr IH]; [done|].
  apply not_elem_of_cons in Hid as [Hne Hid].
  rewrite filter_cons_True by done. by rewrite IH.
Qed.

Lemma without_idemp id arr : without id (without id arr) = without id arr.
Proof. apply without_not_in, not_elem_of_without. Qed.

Lemma without_app id arr1 arr2 :
  without id (arr1 ++ arr2) = (without id arr1 ++ without id arr2)%list.
Proof. unfold without. apply filter_app. Qed.

Lemma without_insert_at index id arr :
  without id (insert_at index id arr) = without id arr.
Proof.
  assert (without id (id :: arr) = without id arr) as Hcons.
  { unfold without. rewrite filter_cons_False; [done|]. by intros []. }
  destruct index as [i|]; simpl; [|apply Hcons].
  unfold splice. set (n := splice_start i (length arr)).
  rewrite without_app.
  change (id :: drop n arr) with ([id] ++ drop n arr)%list.
  rewrite without_app.
  assert (without id [id] = []) as ->.
  { unfold without. rewrite filter_cons_False; [done|]. by intros []. }
  rewrite app_nil_l, <- without_app. by rewrite take_drop.
Qed.

Lemma splice_start_le i len : (splice_start i len ≤ len)%nat.
Proof. unfold splice_start. destruct (i <? 0) eqn:E; lia. Qed.

Lemma length_insert_at index id arr :
  length (insert_at index id arr) = S (length arr).
Proof.
  destruct index as [i|]; simpl; [|done].
  unfold splice. pose proof (splice_start_le i (length arr)).
  rewrite length_app, length_take. simpl. rewrite length_drop. lia.
Qed.

End more_arrays.

(** X1.  Insertion never loses or repeats an element and clamps its
    position: the list grows by one and its other elements keep their order
    for every index; an index within the list is the position of the new
    id, an index at or past the end appends, a negative index counts from
    the end and one at or below minus the length prepends. *)
Theorem insert_at_clamps index id arr :
  length (insert_at index id arr) = S (length arr) ∧
  without id (insert_at index id arr) = without id arr ∧
  match index with
  | None => insert_at index id arr = id :: arr
  | Some i =>
    (0 ≤ i ≤ Z.of_nat (length arr) →
       insert_at index id arr !! Z.to_nat i = Some id) ∧
    (Z.of_nat (length arr) ≤ i → insert_at index id arr = (arr ++ [id])%list) ∧
    (- Z.of_nat (length arr) < i < 0 →
       insert_at index id arr !! Z.to_nat (Z.of_nat (length arr) + i) = Some id) ∧
    (i ≤ - Z.of_nat (length arr) → i < 0 → insert_at index id arr = id :: arr)
  end.
Proof.
  split; [apply length_insert_at|]. split; [apply without_insert_at|].
  destruct index as [i|]; [|done]. cbn [insert_at]. unfold splice.
  assert (∀ n, (n ≤ length arr)%nat →
            (take n arr ++ id :: drop n arr)%list !! n = Some id) as Hat.
  { intros n Hn. rewrite lookup_app_r by (rewrite length_take; lia).
    rewrite length_take. by replace (n - n `min` length arr)%nat with 0%nat by lia. }
  repeat split.
  - intros Hi. unfold splice_start.
    assert ((i <? 0) = false) as -> by lia.
    replace (Z.to_nat (Z.min i (Z.of_nat (length arr)))) with (Z.to_nat i) by lia.
    apply Hat. lia.
  - intros Hi. unfold splice_start.
    destruct (i <? 0) eqn:E.
    + assert (length arr = 0%nat) as Hlen by lia.
      destruct arr; [|done]. by destruct (Z.to_nat _).
    + replace (Z.to_nat (Z.min i (Z.of_nat (length arr)))) with (length arr) by lia.
      by rewrite take_ge, drop_ge by lia.
  - intros Hi. unfold splice_start.
    assert ((i <? 0) = true) as -> by lia.
    replace (Z.to_nat (Z.max (Z.of_nat (length arr) + i) 0))
      with (Z.to_nat (Z.of_nat (length arr) + i)) by lia.
    apply Hat. lia.
  - intros Hi Hneg. unfold splice_start.
    assert ((i <? 0) = true) as -> by lia.
    replace (Z.to_nat (Z.max (Z.of_nat (length arr) + i) 0)) with 0%nat by lia.
    by rewrite take_0, drop_0.
Qed.



(** X3.  Add and delete undo each other: adding an item whose id is in no
    lane and not in [items], at any index, and then deleting that id gives
    back the lanes and the items the board started with. *)
Theorem item_add_then_delete now1 now2 it lane index m1 m2 s :
  item_id it ≠ EmptyString → lane ≠ EmptyString → is_Some (lanes s !! lane) →
  items s !! item_id it = None →
  (∀ l arr, lanes s !! l = Some arr → item_id it ∉ arr) →
  let s1 := (Authority.item_add now1 (Some it) lane index m1 s).1 in
  let r := Authority.item_delete now2 (item_id it) m2 s1 in
  accepted now1 (ItemAdd (Some it) lane index m1) s ∧
  is_Some r.2 ∧ lanes r.1 = lanes s ∧ items r.1 = items s.
Proof.
  intros Hid Hlane [src Hsrc] Hfresh Hnowhere s1 r. subst s1 r.
  unfold accepted. cbn [Authority.handle].
  unfold Authority.item_add, Authority.item_delete.
  rewrite !decide_False by done. rewrite Hsrc. cbn.
  rewrite lookup_insert_eq. cbn.
  split; [by eexists|]. split; [by eexists|]. split.
  - apply map_eq. intros l. rewrite forEach_lane_lookup.
    destruct (decide (l = lane)) as [->|Hne].
    + rewrite lookup_insert_eq, Hsrc. cbn.
      rewrite without_insert_at, without_idemp.
      f_equal. apply without_not_in. by eapply Hnowhere.
    + rewrite lookup_insert_ne by done.
      destruct (lanes s !! l) as [arr|] eqn:Harr; [|done]. cbn.
      f_equal. apply without_not_in. by eapply Hnowhere.
  - by apply delete_insert_id.
Qed.

Lemma item_add_then_delete_witness :
  let s1 := (Authority.item_add (t0 + 5) (Some x1) "Curacao" (Some 2)
               (Some (t0 + 4)) (boardState0 t0)).1 in
  let r := Authority.item_delete (t0 + 7) "x1" (Some (t0 + 6)) s1 in
  is_Some r.2 ∧ lanes r.1 = lanes (boardState0 t0) ∧
  items r.1 = items (boardState0 t0).
Proof.
  intros s1 r.
  apply (item_add_then_delete (t0 + 5) (t0 + 7) x1 "Curacao" (Some 2)
           (Some (t0 + 4)) (Some (t0 + 6)) (boardState0 t0)).
  - by vm_compute.
  - done.
  - by_evaluation.
  - by vm_compute.
  - intros l arr Harr Hin.
    pose proof (boardState0_ok t0) as [Hin0 _].
    destruct (Hin0 l arr "x1" Harr Hin) as [? Hx]. by vm_compute in Hx.
Defined.

(** X4.  No request touches the other ids: whatever the request and
    whether or not it is accepted, every lane's list with the request's own
    id left out is the same list, in the same order, before and after; and
    no request adds or removes a lane. *)
Theorem handle_keeps_other_ids now req s :
  (∀ l, without (req_subject req) <$> lanes (Authority.handle now req s).1 !! l
        = without (req_subject req) <$> lanes s !! l) ∧
  dom (lanes (Authority.handle now req s).1) = dom (lanes s).
Proof.
  assert (∀ (m : gmap string (list string)) k v, is_Some (m !! k) →
            dom (<[k := v]> m) = dom m) as Hdom.
  { intros m k v Hk. rewrite dom_insert_L.
    apply elem_of_dom in Hk.
    by apply subseteq_union_1_L, singleton_subseteq_l. }
  destruct req as [|[it|] lane index mtime|id mtime|id patch mtime
                   |id from to index mtime]; cbn [Authority.handle req_subject];
    try done.
  - unfold Authority.item_add. repeat case_decide; try done.
    destruct (lanes s !! lane) as [arr|] eqn:Harr; [|done]. cbn. split.
    + intros l. destruct (decide (l = lane)) as [->|Hne].
      * rewrite lookup_insert_eq, Harr. cbn.
        by rewrite without_insert_at, without_idemp.
      * by rewrite lookup_insert_ne.
    + by apply Hdom.
  - unfold Authority.item_delete. case_decide; [done|].
    destruct (items s !! id); [|done]. cbn. split.
    + intros l. rewrite forEach_lane_lookup.
      destruct (lanes s !! l); [|done]. cbn. by rewrite without_idemp.
    + rewrite forEach_lane_fmap. apply dom_fmap_L.
  - unfold Authority.item_patch. case_decide; [done|].
    destruct patch; [|done]. by destruct (items s !! id).
  - unfold Authority.lanes_move. repeat case_decide; try done.
    destruct (lanes s !! from) as [fromSrc|] eqn:Hfrom; [|done].
    destruct (lanes s !! to) as [toSrc|] eqn:Hto; [|done]. cbn. split.
    + intros l. destruct (decide (l = to)) as [->|Hne].
      * rewrite lookup_insert_eq, Hto. cbn. by rewrite without_insert_at.
      * rewrite lookup_insert_ne by done.
        destruct (decide (l = from)) as [->|Hne'].
        -- rewrite lookup_insert_eq, Hfrom. cbn. by rewrite without_idemp.
        -- by rewrite lookup_insert_ne.
    + rewrite Hdom; [by apply Hdom|].
      destruct (decide (from = to)) as [->|?];
        [by rewrite lookup_insert_eq|by rewrite lookup_insert_ne].
Qed.

(** X5.  Patches of different properties commute: when two payloads name
    no property in common, the Authority ends with the same items and lanes
    whichever it handles first, and the stored record carries every
    property of both. *)
Theorem item_patch_disjoint_commute now1 now2 id (p1 p2 : Item) m1 m2 s :
  p1 ##ₘ p2 → id ≠ EmptyString → is_Some (items s !! id) →
  let a := (Authority.item_patch now2 id (Some p2) m2
              (Authority.item_patch now1 id (Some p1) m1 s).1).1 in
  let b := (Authority.item_patch now2 id (Some p1) m1
              (Authority.item_patch now1 id (Some p2) m2 s).1).1 in
  items a = items b ∧ lanes a = lanes b ∧
  ∃ it, items a !! id = Some it ∧
        (∀ f v, p1 !! f = Some v → it !! f = Some v) ∧
        (∀ f v, p2 !! f = Some v → it !! f = Some v).
Proof.
  intros Hdisj Hid [ex Hex] a b. subst a b.
  unfold Authority.item_patch. rewrite !decide_False by done.
  rewrite Hex. cbn. rewrite !lookup_insert_eq. cbn.
  rewrite !insert_insert_eq.
  assert (p2 ∪ (p1 ∪ ex) = p1 ∪ (p2 ∪ ex)) as Heq.
  { rewrite !(assoc_L (∪)). f_equal. by apply map_union_comm. }
  split; [by rewrite Heq|]. split; [done|].
  exists (p2 ∪ (p1 ∪ ex)). rewrite lookup_insert_eq. split; [done|]. split.
  - intros f v Hf. rewrite Heq. by apply lookup_union_Some_l.
  - intros f v Hf. by apply lookup_union_Some_l.
Qed.

Lemma item_patch_disjoint_commute_witness :
  let p1 : Item := {["altitude" := VStr "FL350"]} in
  let p2 : Item := {["squawk" := VStr "4301"]} in
  let a := (Authority.item_patch (t0 + 9) "x1" (Some p2) (Some (t0 + 8))
              (Authority.item_patch (t0 + 7) "x1" (Some p1) (Some (t0 + 6))
                 board_x1).1).1 in
  let b := (Authority.item_patch (t0 + 9) "x1" (Some p1) (Some (t0 + 6))
              (Authority.item_patch (t0 + 7) "x1" (Some p2) (Some (t0 + 8))
                 board_x1).1).1 in
  items a = items b ∧ lanes a = lanes b.
Proof.
  intros p1 p2 a b.
  destruct (item_patch_disjoint_commute (t0 + 7) (t0 + 9) "x1" p1 p2
              (Some (t0 + 6)) (Some (t0 + 8)) board_x1) as (Hi & Hl & _).
  - apply map_disjoint_singleton_l. by vm_compute.
  - done.
  - by_evaluation.
  - split; [exact Hi|exact Hl].
Defined.

Section convergence.
Implicit Types (s r : BoardState).




End convergence.



Section snapshots.

Lemma filter_all {A} (P : A → Prop) `{∀ x, Decision (P x)} (l : list A) :
  (∀ x, x ∈ l → P x) → filter P l = l.
Proof.
  induction l as [|x l IH]; intros Hall; [done|].
  rewrite filter_cons_True by (apply Hall, elem_of_cons; by left).
  rewrite IH; [done|]. intros y Hy. apply Hall, elem_of_cons. by right.
Qed.

Lemma board_state_keeps_known incoming :
  lanes_in_items (Replica.board_state incoming).
Proof.
  intros l arr id Hl Hin. cbn in *. rewrite forEach_lane_lookup in Hl.
  destruct (lanes incoming !! l) as [src|]; [|done].
  injection Hl as <-. by apply list_elem_of_filter in Hin as [? _].
Qed.

Lemma board_state_id s : lanes_in_items s → Replica.board_state s = s.
Proof.
  intros Hin. destruct s as [ls its lu]. unfold Replica.board_state. cbn.
  f_equal. rewrite forEach_lane_fmap. apply map_eq. intros l.
  rewrite lookup_fmap. destruct (ls !! l) as [arr|] eqn:Harr; [|done]. cbn.
  f_equal. apply filter_all. intros x Hx. by eapply (Hin l arr x).
Qed.

End snapshots.

(** X7.  A snapshot of a board whose lanes hold only ids of [items] is
    taken over unchanged by the Replica, so what a pull answers on such a
    board becomes the Replica's state as it is; and cleaning a snapshot a
    second time changes nothing more. *)
Theorem board_state_fixes_well_formed s :
  (lanes_in_items s →
   ∀ now, Replica.apply now (EvBoardState (Authority.board_pull s).1)
            (boardState0 now) = s) ∧
  Replica.board_state (Replica.board_state s) = Replica.board_state s.
Proof.
  split.
  - intros Hin now. cbn. by apply board_state_id.
  - apply board_state_id, board_state_keeps_known.
Qed.

Lemma board_state_fixes_well_formed_witness :
  Replica.apply (t0 + 20) (EvBoardState (Authority.board_pull board_moved).1)
    (boardState0 (t0 + 20)) = board_moved.
Proof.
  apply (proj1 (board_state_fixes_well_formed board_moved)).
  assert (board_ok board_moved) as [Hin _]; [|exact Hin].
  unfold board_moved, board_x1.
  apply handle_ok; [by_evaluation|].
  apply handle_ok; [by_evaluation|].
  apply boardState0_ok.
Defined.

Section client.
Import Client.
Implicit Types (x : string) (arr keys : list string).

Lemma find_Some pred keys k :
  find pred keys = Some k → k ∈ keys ∧ pred k = true.
Proof.
  induction keys as [|k' keys IH]; [done|]. cbn.
  destruct (pred k') eqn:E.
  - intros [= <-]. split; [apply elem_of_cons; by left|done].
  - intros H. destruct (IH H). split; [apply elem_of_cons; by right|done].
Qed.

Lemma indexOf_from_spec x arr i :
((x ∉ arr) ∧ indexOf_from x arr i = -1) ∨
  (∃ n : nat, indexOf_from x arr i = i + Z.of_nat n ∧ arr !! n = Some x ∧
              (n < length arr)%nat).
Proof.
  revert i. induction arr as [|y arr IH]; intros i; cbn.
  - left. split; [apply not_elem_of_nil|done].
  - case_decide as Hy.
    + right. exists 0%nat. subst y. cbn. split; [lia|]. split; [done|lia].
    + destruct (IH (i + 1)) as [[Hnot ->]|(n & -> & Hn & Hlt)].
      * left. split; [|done]. apply not_elem_of_cons. split; [congruence|done].
      * right. exists (S n). cbn. split; [lia|]. split; [done|lia].
Qed.

Lemma indexOf_found x arr :
  x ∈ arr →
  0 ≤ indexOf x arr < Z.of_nat (length arr) ∧
  arr !! Z.to_nat (indexOf x arr) = Some x.
Proof.
  intros Hin. unfold indexOf.
  destruct (indexOf_from_spec x arr 0) as [[Hnot _]|(n & -> & Hn & Hlt)]; [done|].
  split; [lia|]. by replace (Z.to_nat (0 + Z.of_nat n)) with n by lia.
Qed.

Lemma indexOf_not_minus_one x arr : indexOf x arr ≠ -1 → x ∈ arr.
Proof.
  unfold indexOf. intros Hne.
  destruct (indexOf_from_spec x arr 0) as [[_ ?]|(n & _ & Hn & _)]; [done|].
  by eapply list_elem_of_lookup_2.
Qed.

Lemma includes_true x arr : includes x arr = true → x ∈ arr.
Proof. unfold includes. apply bool_decide_eq_true_1. Qed.

End client.





Section drags.
Import Client.

Lemma handleDragEnd_cases laneKeys st activeId over :
  match handleDragEnd laneKeys st activeId over with
  | NoDrop => True
  | Reorder lane oldIndex newIndex =>
    lane ∈ laneKeys ∧ lane ≠ EmptyString ∧
    oldIndex = indexOf activeId (default [] (lanes st !! lane)) ∧
    activeId ∈ default [] (lanes st !! lane) ∧
    0 ≤ newIndex < Z.of_nat (length (default [] (lanes st !! lane))) ∧
    oldIndex ≠ newIndex
  | MoveTo id from to index =>
    id = activeId ∧ from ≠ to ∧ from ∈ laneKeys ∧ to ∈ laneKeys ∧
    from ≠ EmptyString ∧ to ≠ EmptyString ∧
    activeId ∈ default [] (lanes st !! from) ∧
    ∃ i, index = Some i ∧ 0 ≤ i ≤ Z.of_nat (length (default [] (lanes st !! to)))
  end.
Proof.
  unfold handleDragEnd.
  destruct over as [overId|]; [|done].
  destruct (find (λ l, includes activeId _) laneKeys) as [origin|] eqn:Horigin;
    [|done].
  destruct (find (λ k, bool_decide (k = overId) || _) laneKeys)
    as [overLane|] eqn:Hover; [|done].
  apply find_Some in Horigin as [Hok Hactive]. apply includes_true in Hactive.
  apply find_Some in Hover as [Hvk Hov].
  destruct (decide (origin = EmptyString)) as [|Ho]; [done|].
  destruct (decide (overLane = EmptyString)) as [|Hv]; [done|].
  destruct (decide (origin = overLane)) as [<-|Hne].
  - destruct (decide (_ ∧ _)) as [(Hold & Hnew & Hdiff)|]; [|done].
    repeat (split; [done|]). split; [|done].
    destruct (decide (overId = origin)) as [->|Hoo].
    + pose proof (indexOf_found activeId _ Hactive). lia.
    + apply indexOf_not_minus_one in Hnew.
      pose proof (indexOf_found overId _ Hnew). lia.
  - repeat (split; [done|]).
    destruct (decide (overId = overLane)) as [->|Hoo].
    + rewrite decide_False by lia. eexists. split; [done|]. lia.
    + apply orb_true_iff in Hov as [Hk|Hinc].
      { apply bool_decide_eq_true_1 in Hk. congruence. }
      apply includes_true in Hinc.
      pose proof (indexOf_found overId _ Hinc) as [? _].
      rewrite decide_False by lia. eexists. split; [done|]. lia.
Qed.

End drags.

(** X10.  Every move a drag produces is a move across lanes of the dragged
    id out of the lane that holds it: [from] and [to] are different,
    non-empty lane keys, the id is in [from]'s list, and the index is always
    a number between 0 and the length of [to]'s list. *)
Theorem handleDragEnd_move laneKeys st activeId over id from to index :
  Client.handleDragEnd laneKeys st activeId over = Client.MoveTo id from to index →
  id = activeId ∧ from ≠ to ∧ from ∈ laneKeys ∧ to ∈ laneKeys ∧
  from ≠ EmptyString ∧ to ≠ EmptyString ∧
  activeId ∈ default [] (lanes st !! from) ∧
  ∃ i, index = Some i ∧ 0 ≤ i ≤ Z.of_nat (length (default [] (lanes st !! to))).
Proof.
  intros Hd. pose proof (handleDragEnd_cases laneKeys st activeId over) as Hc.
  by rewrite Hd in Hc.
Qed.

Lemma handleDragEnd_move_witness :
  Client.handleDragEnd lane_names board_two "x1" (Some "Piarco")
  = Client.MoveTo "x1" "Unassigned" "Piarco" (Some 0) ∧
  "x1" ∈ default [] (lanes board_two !! "Unassigned").
Proof.
  assert (Client.handleDragEnd lane_names board_two "x1" (Some "Piarco")
          = Client.MoveTo "x1" "Unassigned" "Piarco" (Some 0)) as Hd
    by by vm_compute.
  split; [exact Hd|].
  exact (proj1 (proj2 (proj2 (proj2 (proj2 (proj2 (proj2
           (handleDragEnd_move lane_names board_two "x1" (Some "Piarco")
              "x1" "Unassigned" "Piarco" (Some 0) Hd)))))))).
Defined.

(** X11.  A drag that ends in the lane it started in is a reordering with
    two different positions inside that lane's list, the first one being
    where the dragged id is, and it sends nothing to the Authority. *)
Theorem handleDragEnd_reorder laneKeys st activeId over lane oldIndex newIndex :
  Client.handleDragEnd laneKeys st activeId over
  = Client.Reorder lane oldIndex newIndex →
  lane ∈ laneKeys ∧
  default [] (lanes st !! lane) !! Z.to_nat oldIndex = Some activeId ∧
  0 ≤ oldIndex < Z.of_nat (length (default [] (lanes st !! lane))) ∧
  0 ≤ newIndex < Z.of_nat (length (default [] (lanes st !! lane))) ∧
  oldIndex ≠ newIndex ∧
  ∀ now, Client.drag_request now (Client.handleDragEnd laneKeys st activeId over)
         = None.
Proof.
  intros Hd. pose proof (handleDragEnd_cases laneKeys st activeId over) as Hc.
  rewrite Hd in *. destruct Hc as (Hk & _ & -> & Hin & Hnew & Hne).
  destruct (indexOf_found activeId _ Hin) as [Hold Hat].
  done.
Qed.

Lemma handleDragEnd_reorder_witness :
  Client.handleDragEnd lane_names board_two "x2" (Some "x1")
  = Client.Reorder "Unassigned" 0 1 ∧
  default [] (lanes board_two !! "Unassigned") !! Z.to_nat 0 = Some "x2".
Proof.
  assert (Client.handleDragEnd lane_names board_two "x2" (Some "x1")
          = Client.Reorder "Unassigned" 0 1) as Hd by by vm_compute.
  split; [exact Hd|].
  exact (proj1 (proj2
           (handleDragEnd_reorder lane_names board_two "x2" (Some "x1")
              "Unassigned" 0 1 Hd))).
Defined.

(** X12.  On a board whose lanes are disjoint and within [items], the move
    that a drag of a non-empty id sends is accepted by an Authority holding
    that board, meets the guard under which moves keep the board well
    formed, and leaves the Authority's board well formed. *)
Theorem drag_move_keeps_board_ok laneKeys st activeId over id from to index now nows :
  board_ok st → activeId ≠ EmptyString →
  Forall (λ k, is_Some (lanes st !! k)) laneKeys →
  Client.handleDragEnd laneKeys st activeId over = Client.MoveTo id from to index →
  ∃ req, Client.drag_request nows (Client.MoveTo id from to index) = Some req ∧
         accepted now req st ∧ guarded st req ∧
         board_ok (Authority.handle now req st).1.
Proof.
  intros Hok Hid Hkeys Hd.
  apply handleDragEnd_move in Hd
    as (-> & Hne & Hfk & Htk & Hf & Ht & Hin & i & -> & Hi).
  eexists. split; [reflexivity|].
  rewrite Forall_forall in Hkeys.
  destruct (Hkeys _ Hfk) as [fromSrc Hfrom], (Hkeys _ Htk) as [toSrc Hto].
  rewrite Hfrom in Hin. cbn in Hin.
  assert (guarded st (Client.sendMove nows activeId from to (Some i))) as Hg.
  { cbn. destruct Hok as [Hitems Hdis].
    split; [exact (Hitems from fromSrc activeId Hfrom Hin)|].
    intros l arr Harr Hx.
    exact (Hdis l from arr fromSrc activeId Harr Hfrom Hx Hin). }
  split; [|split; [exact Hg|by apply handle_ok]].
  unfold accepted. cbn. unfold Authority.lanes_move.
  rewrite !decide_False by done. rewrite Hfrom, Hto. by eexists.
Qed.

Lemma drag_move_keeps_board_ok_witness :
  ∃ req, Client.drag_request (t0 + 20)
           (Client.MoveTo "x1" "Unassigned" "Piarco" (Some 0)) = Some req ∧
         accepted (t0 + 21) req board_two ∧ guarded board_two req ∧
         board_ok (Authority.handle (t0 + 21) req board_two).1.
Proof.
  apply (drag_move_keeps_board_ok lane_names board_two "x1" (Some "Piarco")
           "x1" "Unassigned" "Piarco" (Some 0) (t0 + 21) (t0 + 20)).
  - unfold board_two, board_x1.
    apply handle_ok; [by_evaluation|].
    apply handle_ok; [by_evaluation|].
    apply boardState0_ok.
  - done.
  - by_evaluation.
  - by vm_compute.
Defined.

(** ** Sessions and access lists *)

Section access.
Import Access.
Implicit Types (c x : string) (set : list string) (st : Server).

Lemma elem_of_set_add x c set : x ∈ set_add c set ↔ x = c ∨ x ∈ set.
Proof.
  unfold set_add. case_decide as Hc.
  - split; [intros ?; by right|intros [->|?]; done].
  - rewrite elem_of_app, list_elem_of_singleton. tauto.
Qed.

Lemma elem_of_set_delete x c set : x ∈ set_delete c set ↔ x ≠ c ∧ x ∈ set.
Proof. unfold set_delete. by rewrite list_elem_of_filter. Qed.

Lemma set_delete_add c set : c ∉ set → set_delete c (set_add c set) = set.
Proof.
  intros Hc. unfold set_add. rewrite decide_False by done.
  unfold set_delete. rewrite filter_app, filter_cons_False by (by intros []).
  rewrite filter_nil, app_nil_r. apply filter_all. intros y Hy ->. done.
Qed.

Lemma set_add_add c set : set_add c (set_add c set) = set_add c set.
Proof.
  unfold set_add at 1. rewrite decide_True; [done|].
  apply elem_of_set_add. by left.
Qed.

Lemma add_truthy_from acc arr :
  NoDup (acc ++ arr) →
  foldl (λ set c, if decide (c = EmptyString) then set else set_add c set) acc arr
  = (acc ++ filter (λ c, c ≠ EmptyString) arr)%list.
Proof.
  revert acc. induction arr as [|c arr IH]; intros acc Hnd; cbn [foldl].
  - by rewrite filter_nil, app_nil_r.
  - assert (NoDup ((acc ++ [c]) ++ arr)) as Hnd' by (by rewrite <- app_assoc).
    apply NoDup_app in Hnd as (_ & Hdisj & _).
    case_decide as Hc.
    + subst c. rewrite filter_cons_False by (by intros []).
      apply IH. apply NoDup_app in Hnd' as (Hacc & Hd & Harr).
      apply NoDup_app in Hacc as (Hacc & _ & _).
      apply NoDup_app. split; [done|]. split; [|done].
      intros x Hx. apply Hd, elem_of_app. by left.
    + rewrite filter_cons_True by done.
      assert (set_add c acc = (acc ++ [c])%list) as ->.
      { unfold set_add. rewrite decide_False; [done|].
        intros Hin. apply (Hdisj c Hin). apply elem_of_cons. by left. }
      rewrite (IH _ Hnd'). by rewrite <- app_assoc.
Qed.

Lemma set_of_NoDup arr : NoDup arr → set_of arr = arr.
Proof.
  intros Hnd. unfold set_of.
  assert (∀ acc, NoDup (acc ++ arr) →
            foldl (λ set x, set_add x set) acc arr = (acc ++ arr)%list) as H.
  { clear Hnd. induction arr as [|c arr IH]; intros acc Hnd; cbn [foldl].
    - by rewrite app_nil_r.
    - assert (NoDup ((acc ++ [c]) ++ arr)) as Hnd' by (by rewrite <- app_assoc).
      apply NoDup_app in Hnd as (_ & Hdisj & _).
      assert (set_add c acc = (acc ++ [c])%list) as ->.
      { unfold set_add. rewrite decide_False; [done|].
        intros Hin. apply (Hdisj c Hin). apply elem_of_cons. by left. }
      rewrite (IH _ Hnd'). by rewrite <- app_assoc. }
  by apply (H []).
Qed.

Lemma post_keeps_sessions op cookie bodyCid st :
  sessions (access_post op cookie bodyCid st).1.1 = sessions st.
Proof.
  unfold access_post. destruct (getSession cookie st); [|done].
  destruct (set_has _ _); [|done]. destruct bodyCid; [|done]. by destruct op.
Qed.

Lemma getSession_Some cookie st session :
  getSession cookie st = Some session →
  ∃ sid, cookie = Some sid ∧ sessions st !! sid = Some session.
Proof.
  unfold getSession. destruct cookie as [sid|]; [|done].
  case_decide; [done|]. eauto.
Qed.

Lemma getSession_sessions cookie st st' :
  sessions st' = sessions st → getSession cookie st' = getSession cookie st.
Proof. unfold getSession. by intros ->. Qed.

Lemma access_post_admin op cookie session c st :
  getSession cookie st = Some session →
  cid (user session) ∈ ADMIN_CIDS st →
  access_post op cookie (Some c) st
  = (change op c st,
     mkResponse 200 (Lists (ACCESS_CIDS (change op c st))
                           (ADMIN_CIDS (change op c st))),
     Some (saveAccessToDisk (change op c st))).
Proof.
  intros Hs Hadmin. unfold access_post. rewrite Hs.
  unfold set_has. by rewrite bool_decide_eq_true_2.
Qed.

Lemma access_post_not_admin op cookie session bodyCid st :
  getSession cookie st = Some session →
  cid (user session) ∉ ADMIN_CIDS st →
  access_post op cookie bodyCid st
  = (st, mkResponse 403 (Error "not_admin"), None).
Proof.
  intros Hs Hadmin. unfold access_post. rewrite Hs.
  unfold set_has. by rewrite bool_decide_eq_false_2.
Qed.

End access.

(** X13.  Only administrators change the lists: as long as no session
    belongs to a CID on the admin list, no run of POSTs to the four access
    routes, with whatever cookies and bodies, changes the access list, the
    admin list or the sessions, and each of them is answered with 401 or
    403 and writes no file. *)
Theorem access_post_needs_admin reqs st :
  (∀ sid session, Access.sessions st !! sid = Some session →
                  Access.cid (Access.user session) ∉ Access.ADMIN_CIDS st) →
  Access.post_run reqs st = st ∧
  ∀ op cookie bodyCid,
    let out := Access.access_post op cookie bodyCid st in
    out.1.1 = st ∧ out.2 = None ∧
    (Access.status out.1.2 = 401%nat ∨ Access.status out.1.2 = 403%nat).
Proof.
  intros Hno.
  assert (∀ op cookie bodyCid,
            let out := Access.access_post op cookie bodyCid st in
            out.1.1 = st ∧ out.2 = None ∧
            (Access.status out.1.2 = 401%nat ∨ Access.status out.1.2 = 403%nat))
    as Hone.
  { intros op cookie bodyCid. cbn. unfold Access.access_post.
    destruct (Access.getSession cookie st) as [session|] eqn:Hs; [|by auto].
    apply getSession_Some in Hs as (sid & _ & Hs).
    unfold Access.set_has. rewrite bool_decide_eq_false_2 by by eapply Hno.
    auto. }
  split; [|exact Hone].
  unfold Access.post_run. induction reqs as [|[[op cookie] bodyCid] reqs IH]; [done|].
  cbn. by rewrite (proj1 (Hone op cookie bodyCid)).
Qed.

Lemma access_post_needs_admin_witness :
  let st := {| Access.sessions := Access.sessions sample_server;
               Access.ACCESS_CIDS := ["1000001"];
               Access.ADMIN_CIDS := ["7777777"] |} in
  Access.post_run
    [ (Access.AddAdmin, Some "aa11", Some "1000001");
      (Access.RemoveAccess, Some "bb22", Some "1000001");
      (Access.AddAccess, None, Some "1000002") ] st = st.
Proof.
  intros st.
  refine (proj1 (access_post_needs_admin
                   [ (Access.AddAdmin, Some "aa11", Some "1000001");
                     (Access.RemoveAccess, Some "bb22", Some "1000001");
                     (Access.AddAccess, None, Some "1000002") ] st _)).
  intros sid session Hs. cbn in Hs.
  apply lookup_insert_Some in Hs as [[_ <-]|[_ Hs]]; [by_evaluation|].
  apply lookup_insert_Some in Hs as [[_ <-]|[_ Hs]]; [by_evaluation|].
  by rewrite lookup_empty in Hs.
Defined.

(** X14.  Adding and removing undo each other: when an administrator adds
    a CID that is not on the access list it goes to the end of the list,
    adding it again changes nothing, and removing it gives back the server
    state from before the add. *)
Theorem access_add_remove_round_trip cookie session c st :
  Access.getSession cookie st = Some session →
  Access.cid (Access.user session) ∈ Access.ADMIN_CIDS st →
  c ∉ Access.ACCESS_CIDS st →
  let st1 := (Access.access_post Access.AddAccess cookie (Some c) st).1.1 in
  let st2 := (Access.access_post Access.RemoveAccess cookie (Some c) st1).1.1 in
  Access.ACCESS_CIDS st1 = (Access.ACCESS_CIDS st ++ [c])%list ∧
  (Access.access_post Access.AddAccess cookie (Some c) st1).1.1 = st1 ∧
  st2 = st.
Proof.
  intros Hs Hadmin Hc st1 st2. subst st1 st2.
  rewrite (access_post_admin _ _ _ _ _ Hs Hadmin). cbn [fst snd].
  assert (Access.getSession cookie (Access.change Access.AddAccess c st)
          = Some session) as Hs1
    by (by rewrite (getSession_sessions cookie st)).
  rewrite !(access_post_admin _ _ _ _ _ Hs1 Hadmin). cbn [fst snd].
  destruct st as [ss acc adm]. unfold Access.change.
  cbn [Access.sessions Access.ACCESS_CIDS Access.ADMIN_CIDS] in *.
  split; [|split].
  - unfold Access.set_add. by rewrite decide_False.
  - by rewrite set_add_add.
  - by rewrite set_delete_add.
Qed.

Lemma access_add_remove_round_trip_witness :
  let st1 := (Access.access_post Access.AddAccess (Some "aa11") (Some "1000002")
                sample_server).1.1 in
  Access.ACCESS_CIDS st1 = ["1000001"; "1000002"] ∧
  (Access.access_post Access.RemoveAccess (Some "aa11") (Some "1000002") st1).1.1
  = sample_server.
Proof.
  intros st1.
  destruct (access_add_remove_round_trip (Some "aa11")
              (Access.mkSession admin_user t0) "1000002" sample_server
              ltac:(by vm_compute) ltac:(by_evaluation) ltac:(by_evaluation))
    as (Hadd & _ & Hback).
  split; [exact Hadd|exact Hback].
Defined.

(** X15.  An empty access list lets everyone in: when an administrator
    removes the only CID on the list, [/auth/me] reports every session as
    authorized, including those it reported as not authorized before. *)
Theorem removing_last_cid_opens_access cookie session c st :
  Access.getSession cookie st = Some session →
  Access.cid (Access.user session) ∈ Access.ADMIN_CIDS st →
  Access.ACCESS_CIDS st = [c] →
  let st' := (Access.access_post Access.RemoveAccess cookie (Some c) st).1.1 in
  Access.ACCESS_CIDS st' = [] ∧
  ∀ cookie2 session2, Access.getSession cookie2 st = Some session2 →
    (∃ m, Access.body (Access.auth_me cookie2 st')
          = Access.Me true m (Access.user session2) 0) ∧
    (Access.cid (Access.user session2) ≠ c →
     ∃ m, Access.body (Access.auth_me cookie2 st)
          = Access.Me false m (Access.user session2) 1).
Proof.
  intros Hs Hadmin Hacc st'. subst st'.
  rewrite (access_post_admin _ _ _ _ _ Hs Hadmin). cbn [fst snd].
  assert (Access.ACCESS_CIDS (Access.change Access.RemoveAccess c st) = [])
    as Hempty.
  { cbn. rewrite Hacc. unfold Access.set_delete.
    by rewrite filter_cons_False by (by intros []). }
  split; [exact Hempty|]. intros cookie2 session2 Hs2. split.
  - unfold Access.auth_me. rewrite (getSession_sessions cookie2 st) by done.
    rewrite Hs2, Hempty. cbn. eauto.
  - intros Hne. unfold Access.auth_me. rewrite Hs2, Hacc.
    assert (Access.set_has (Access.cid (Access.user session2)) [c] = false) as ->.
    { unfold Access.set_has. apply bool_decide_eq_false_2.
      by intros Heq%list_elem_of_singleton. }
    cbn. eauto.
Qed.

Lemma removing_last_cid_opens_access_witness :
  let st' := (Access.access_post Access.RemoveAccess (Some "aa11") (Some "1000001")
                sample_server).1.1 in
  Access.body (Access.auth_me (Some "bb22") sample_server)
  = Access.Me false false plain_user 1 ∧
  ∃ m, Access.body (Access.auth_me (Some "bb22") st')
       = Access.Me true m plain_user 0.
Proof.
  intros st'. split; [by vm_compute|].
  destruct (removing_last_cid_opens_access (Some "aa11")
              (Access.mkSession admin_user t0) "1000001" sample_server
              ltac:(by vm_compute) ltac:(by_evaluation) eq_refl) as [_ Hall].
  destruct (Hall (Some "bb22") (Access.mkSession plain_user t0)
              ltac:(by vm_compute)) as [Hopen _].
  exact Hopen.
Defined.

(** X16.  Nothing stops an administrator from removing itself: the request
    is answered 200, and from then on every access route answers 403 to
    that session and changes nothing; if it was the only administrator the
    admin list is left empty. *)
Theorem admin_can_remove_itself cookie session st :
  Access.getSession cookie st = Some session →
  Access.cid (Access.user session) ∈ Access.ADMIN_CIDS st →
  let out := Access.access_post Access.RemoveAdmin cookie
               (Some (Access.cid (Access.user session))) st in
  Access.status out.1.2 = 200%nat ∧
  (Access.cid (Access.user session) ∉ Access.ADMIN_CIDS out.1.1) ∧
  (∀ op bodyCid,
     Access.access_post op cookie bodyCid out.1.1
     = (out.1.1, Access.mkResponse 403 (Access.Error "not_admin"), None)) ∧
  Access.access_get cookie out.1.1
  = Access.mkResponse 403 (Access.Error "not_admin") ∧
  (Access.ADMIN_CIDS st = [Access.cid (Access.user session)] →
   Access.ADMIN_CIDS out.1.1 = []).
Proof.
  intros Hs Hadmin out. subst out.
  rewrite (access_post_admin _ _ _ _ _ Hs Hadmin). cbn [fst snd].
  set (c := Access.cid (Access.user session)) in *.
  set (st' := Access.change Access.RemoveAdmin c st).
  assert (c ∉ Access.ADMIN_CIDS st') as Hgone.
  { subst st'. cbn. rewrite elem_of_set_delete. tauto. }
  assert (Access.getSession cookie st' = Some session) as Hs'
    by (by rewrite (getSession_sessions cookie st)).
  split; [done|]. split; [done|]. split; [|split].
  - intros op bodyCid. by apply (access_post_not_admin _ _ session).
  - unfold Access.access_get. rewrite Hs'.
    unfold Access.set_has. fold c. by rewrite bool_decide_eq_false_2.
  - intros Hone. subst st'. cbn. rewrite Hone. unfold Access.set_delete.
    by rewrite filter_cons_False by (by intros []).
Qed.

Lemma admin_can_remove_itself_witness :
  let out := Access.access_post Access.RemoveAdmin (Some "aa11") (Some "1000001")
               sample_server in
  Access.status out.1.2 = 200%nat ∧ Access.ADMIN_CIDS out.1.1 = [] ∧
  Access.access_get (Some "aa11") out.1.1
  = Access.mkResponse 403 (Access.Error "not_admin").
Proof.
  intros out.
  destruct (admin_can_remove_itself (Some "aa11") (Access.mkSession admin_user t0)
              sample_server ltac:(by vm_compute) ltac:(by_evaluation))
    as (Hok & _ & _ & Hget & Hempty).
  split; [exact Hok|]. split; [exact (Hempty eq_refl)|exact Hget].
Defined.

(** X17.  What a restart keeps of the lists that were saved: the sessions
    are gone; the access list comes back as saved, without empty strings,
    even when it is empty; the admin list comes back as saved, without
    empty strings, unless it was saved empty, in which case the
    administrators of the environment are back. *)
Theorem restart_restores_lists env_admins env_allowed st :
  NoDup (Access.ACCESS_CIDS st) → NoDup (Access.ADMIN_CIDS st) →
  let st' := Access.startup env_admins env_allowed
               (Access.on_disk (Access.saveAccessToDisk st)) in
  Access.sessions st' = ∅ ∧
  Access.ACCESS_CIDS st'
  = filter (λ c, c ≠ EmptyString) (Access.ACCESS_CIDS st) ∧
  Access.ADMIN_CIDS st'
  = match Access.ADMIN_CIDS st with
    | [] => Access.set_of env_admins
    | _ => filter (λ c, c ≠ EmptyString) (Access.ADMIN_CIDS st)
    end.
Proof.
  intros Hacc Hadm st'. subst st'. unfold Access.startup, Access.on_disk.
  cbn [Access.loadAccessFromDisk Access.saveAccessToDisk Access.allowed
       Access.admins Access.sessions Access.ACCESS_CIDS Access.ADMIN_CIDS].
  split; [done|]. split.
  - unfold Access.add_truthy. by rewrite add_truthy_from.
  - destruct (Access.ADMIN_CIDS st) as [|a adm] eqn:E; [done|].
    rewrite decide_True by (cbn; lia).
    unfold Access.add_truthy. by rewrite add_truthy_from.
Qed.

Lemma restart_restores_lists_witness :
  let emptied := (Access.access_post Access.RemoveAdmin (Some "aa11")
                    (Some "1000001") sample_server).1.1 in
  let st' := Access.startup ["5550001"; "5550001"] []
               (Access.on_disk (Access.saveAccessToDisk emptied)) in
  Access.ADMIN_CIDS emptied = [] ∧
  Access.ADMIN_CIDS st' = ["5550001"] ∧ Access.ACCESS_CIDS st' = ["1000001"].
Proof.
  intros emptied st'.
  destruct (restart_restores_lists ["5550001"; "5550001"] [] emptied)
    as (_ & Hacc & Hadm).
  - by_evaluation.
  - by_evaluation.
  - split; [by vm_compute|]. split; [exact Hadm|exact Hacc].
Defined.

(** X18.  The first login on an empty access list takes the board: the
    user's CID becomes the whole access list and is saved, [/auth/me]
    reports that user as authorized, and a session of any other CID, which
    was authorized while the list was empty, is not authorized any more.
    On a non-empty list a login only creates the session. *)
Theorem first_login_takes_the_board sid now u st :
  sid ≠ EmptyString →
  (Access.ACCESS_CIDS st = [] →
   let out := Access.login sid now u st in
   Access.ACCESS_CIDS out.1 = [Access.cid u] ∧
   out.2 = Some (Access.mkAccessFile [Access.cid u] (Access.ADMIN_CIDS st)) ∧
   (∃ m, Access.body (Access.auth_me (Some sid) out.1) = Access.Me true m u 1) ∧
   ∀ cookie session,
     Access.getSession cookie st = Some session → cookie ≠ Some sid →
     Access.cid (Access.user session) ≠ Access.cid u →
     (∃ m, Access.body (Access.auth_me cookie st)
           = Access.Me true m (Access.user session) 0) ∧
     (∃ m, Access.body (Access.auth_me cookie out.1)
           = Access.Me false m (Access.user session) 1)) ∧
  (Access.ACCESS_CIDS st ≠ [] →
   Access.login sid now u st = (Access.createSession sid now u st, None)).
Proof.
  intros Hsid. split.
  - intros Hempty out. subst out. unfold Access.login.
    cbn [Access.createSession Access.ACCESS_CIDS Access.ADMIN_CIDS Access.sessions].
    rewrite Hempty. cbn [length].
    destruct (decide (0%nat = 0%nat)) as [_|?]; [|done].
    cbn [fst snd Access.ACCESS_CIDS Access.saveAccessToDisk Access.ADMIN_CIDS].
    assert (Access.set_add (Access.cid u) [] = [Access.cid u]) as Hadd by done.
    rewrite Hadd.
    split; [done|]. split; [done|]. split.
    + unfold Access.auth_me, Access.getSession.
      rewrite decide_False by done. cbn [Access.sessions].
      rewrite lookup_insert_eq.
      cbn [Access.user Access.ACCESS_CIDS Access.ADMIN_CIDS Access.body length].
      assert (Access.set_has (Access.cid u) [Access.cid u] = true) as ->.
      { unfold Access.set_has. apply bool_decide_eq_true_2.
        by apply list_elem_of_singleton. }
      rewrite orb_true_r. eauto.
    + intros cookie session Hs Hcookie Hcid. split.
      * unfold Access.auth_me. rewrite Hs, Hempty. cbn. eauto.
      * unfold Access.auth_me.
        assert (Access.getSession cookie
                  (Access.mkServer
                     (<[sid := Access.mkSession u now]> (Access.sessions st))
                     [Access.cid u] (Access.ADMIN_CIDS st)) = Some session) as ->.
        { revert Hs. unfold Access.getSession.
          destruct cookie as [sid'|]; [|done]. case_decide; [done|].
          cbn. intros Hs. rewrite lookup_insert_ne; [done|congruence]. }
        cbn [Access.user Access.ACCESS_CIDS Access.ADMIN_CIDS Access.body length].
        assert (Access.set_has (Access.cid (Access.user session)) [Access.cid u]
                = false) as ->.
        { unfold Access.set_has. apply bool_decide_eq_false_2.
          by intros Heq%list_elem_of_singleton. }
        cbn. eauto.
  - intros Hne. unfold Access.login.
    cbn [Access.createSession Access.ACCESS_CIDS].
    rewrite decide_False; [done|]. by destruct (Access.ACCESS_CIDS st).
Qed.

Lemma first_login_takes_the_board_witness :
  let st := {| Access.sessions := Access.sessions sample_server;
               Access.ACCESS_CIDS := [];
               Access.ADMIN_CIDS := ["1000001"] |} in
  let out := Access.login "cc33" (t0 + 1)
               (Access.mkProfile "1000003" "NEW USER" None None None) st in
  Access.ACCESS_CIDS out.1 = ["1000003"] ∧
  Access.body (Access.auth_me (Some "bb22") st)
  = Access.Me true false plain_user 0 ∧
  ∃ m, Access.body (Access.auth_me (Some "bb22") out.1)
       = Access.Me false m plain_user 1.
Proof.
  intros st out.
  destruct (first_login_takes_the_board "cc33" (t0 + 1)
              (Access.mkProfile "1000003" "NEW USER" None None None) st
              ltac:(done)) as [Hfirst _].
  destruct (Hfirst eq_refl) as (Hlist & _ & _ & Hothers).
  destruct (Hothers (Some "bb22") (Access.mkSession plain_user t0)
              ltac:(by vm_compute) ltac:(done) ltac:(by vm_compute))
    as [_ Hafter].
  split; [exact Hlist|]. split; [by vm_compute|exact Hafter].
Defined.

(** ** Time labels and input formatting *)

Section time.
Import TimeUtil.
Implicit Types (s : string) (cs : list ascii).

Lemma chars_str cs : chars (str cs) = cs.
Proof. apply String.list_ascii_of_string_of_list_ascii. Qed.

Lemma str_chars s : str (chars s) = s.
Proof. apply String.string_of_list_ascii_of_string. Qed.

Lemma length_chars s : length (chars s) = String.length s.
Proof. induction s as [|c s IH]; [done|]. cbn. by rewrite <- IH. Qed.

Lemma chars_append s1 s2 : chars (String.append s1 s2) = (chars s1 ++ chars s2)%list.
Proof.
  unfold chars. induction s1 as [|c s1 IH]; [done|].
  change (String.append (String c s1) s2) with (String c (String.append s1 s2)).
  cbn. by rewrite IH.
Qed.

Lemma str_nil_inv cs : str cs = EmptyString → cs = [].
Proof. by destruct cs. Qed.


Lemma to_parse_table :
  Forall (λ h : nat, Forall (λ m : nat,
            minutes_of (String.append (padStart2 (pretty (Z.of_nat h)))
                                      (padStart2 (pretty (Z.of_nat m))))
            = Some (Minutes (Z.of_nat h * 60 + Z.of_nat m))
            ∧ trim (String.append (padStart2 (pretty (Z.of_nat h)))
                                  (padStart2 (pretty (Z.of_nat m))))
              = String.append (padStart2 (pretty (Z.of_nat h)))
                              (padStart2 (pretty (Z.of_nat m))))
          (seq 0 60)) (seq 0 24).
Proof. by_evaluation. Qed.

Lemma to_parse h m :
  0 ≤ h < 24 → 0 ≤ m < 60 →
  let label := String.append (padStart2 (pretty h)) (padStart2 (pretty m)) in
  minutes_of label = Some (Minutes (h * 60 + m)) ∧ trim label = label.
Proof.
  intros Hh Hm.
  pose proof to_parse_table as Ht. rewrite Forall_forall in Ht.
  specialize (Ht (Z.to_nat h)). rewrite Forall_forall in Ht.
  specialize (Ht ltac:(apply elem_of_seq; lia) (Z.to_nat m)
                 ltac:(apply elem_of_seq; lia)).
  by rewrite !Z2Nat.id in Ht by lia.
Qed.

End time.

Section formats.
Import TimeUtil.
Implicit Types (s : string) (cs : list ascii).

Lemma minutes_of_empty : minutes_of EmptyString = None.
Proof. done. Qed.

Lemma parseHHMM_minutes_of s : parseHHMM s = minutes_of (trim s).
Proof.
  unfold parseHHMM. case_decide as He; [|done]. by rewrite He.
Qed.

Lemma digit_not_space (c : ascii) : is_digit c = true → is_space c = false.
Proof. unfold is_digit, is_space. lia. Qed.

Lemma trim_start_digits cs :
  match cs with c :: _ => is_digit c = true | [] => True end →
  trim_start cs = cs.
Proof.
  destruct cs as [|c cs]; [done|]. intros Hc. cbn.
  by rewrite (digit_not_space c Hc).
Qed.

Lemma head_digit cs :
  Forall (λ c, is_digit c = true) cs →
  match cs with c :: _ => is_digit c = true | [] => True end.
Proof. intros H. destruct H; done. Qed.

Lemma trim_all_digits cs :
  Forall (λ c, is_digit c = true) cs → trim (str cs) = str cs.
Proof.
  intros Hall. unfold trim. rewrite chars_str.
  rewrite (trim_start_digits cs) by (by apply head_digit).
  rewrite trim_start_digits.
  - by rewrite reverse_involutive.
  - apply head_digit. by apply Forall_reverse.
Qed.

Lemma filter_digits_all cs :
  Forall (λ c, is_digit c = true) cs → filter (λ c, is_digit c) cs = cs.
Proof.
  intros Hall. apply filter_all. intros c Hc.
  rewrite Forall_forall in Hall. apply Is_true_true. by apply Hall.
Qed.

Lemma digits_are_digits s :
  Forall (λ c, is_digit c = true) (filter (λ c, is_digit c) (chars s)).
Proof.
  apply Forall_forall. intros c Hc.
  apply list_elem_of_filter in Hc as [Hc _]. by apply Is_true_true.
Qed.

Lemma chars_slice i j s : chars (slice i j s) = take (j - i) (drop i (chars s)).
Proof. unfold slice. apply chars_str. Qed.

Lemma chars_fmt k s :
  chars (slice 0 k (digits s)) = take k (filter (λ c, is_digit c) (chars s)) ∧
  Forall (λ c, is_digit c = true) (chars (slice 0 k (digits s))).
Proof.
  rewrite chars_slice. unfold digits. rewrite chars_str, drop_0, Nat.sub_0_r.
  split; [done|]. apply Forall_take, digits_are_digits.
Qed.

Lemma slice_digits_fixed k (pre : list ascii) cs :
  Forall (λ c, is_digit c = false) pre →
  Forall (λ c, is_digit c = true) cs → (length cs ≤ k)%nat →
  slice 0 k (digits (str (pre ++ cs))) = str cs.
Proof.
  intros Hpre Hcs Hlen. unfold slice, digits.
  rewrite !chars_str, drop_0, Nat.sub_0_r, filter_app.
  assert (filter (λ c, is_digit c) pre = []) as ->.
  { clear -Hpre. induction Hpre as [|c pre Hc _ IH]; [done|].
    rewrite filter_cons_False; [done|]. rewrite Hc. by intros []. }
  rewrite app_nil_l, filter_digits_all by done. by rewrite take_ge.
Qed.

End formats.

(** X19.  [toHHMM] and the parsers are inverse on time labels: the label of
    any instant has four characters, and both parsers read it back as the
    UTC hour times 60 plus the UTC minute of that instant. *)
Theorem toHHMM_parse_round_trip t :
  String.length (TimeUtil.toHHMM t) = 4%nat ∧
  TimeUtil.parseHHMM (TimeUtil.toHHMM t)
  = Some (TimeUtil.Minutes (TimeUtil.getUTCHours t * 60 + TimeUtil.getUTCMinutes t)) ∧
  TimeUtil.parseHHMMToMinutes (TimeUtil.toHHMM t)
  = Some (TimeUtil.Minutes (TimeUtil.getUTCHours t * 60 + TimeUtil.getUTCMinutes t)).
Proof.
  unfold TimeUtil.toHHMM.
  assert (0 ≤ TimeUtil.getUTCHours t < 24) as Hh
    by (unfold TimeUtil.getUTCHours; apply Z.mod_pos_bound; lia).
  assert (0 ≤ TimeUtil.getUTCMinutes t < 60) as Hm
    by (unfold TimeUtil.getUTCMinutes; apply Z.mod_pos_bound; lia).
  destruct (to_parse _ _ Hh Hm) as [Hparse Htrim].
  rewrite parseHHMM_minutes_of. unfold TimeUtil.parseHHMMToMinutes.
  rewrite Htrim. split; [|done].
  revert Hparse. unfold TimeUtil.minutes_of. case_decide as Hlen; [done|].
  intros _. first [exact Hlen | by apply dec_stable].
Qed.




(** X22.  The input formatters are stable: formatting an already formatted
    value gives it back, for [fmtHHMM], [fmtFL] and [fmtMach]; [fmtHHMM]
    yields at most four characters, all of them digits. *)
Theorem formatters_idempotent s :
  TimeUtil.fmtHHMM (TimeUtil.fmtHHMM s) = TimeUtil.fmtHHMM s ∧
  TimeUtil.fmtFL (TimeUtil.fmtFL s) = TimeUtil.fmtFL s ∧
  TimeUtil.fmtMach (TimeUtil.fmtMach s) = TimeUtil.fmtMach s ∧
  (String.length (TimeUtil.fmtHHMM s) ≤ 4)%nat ∧
  Forall (λ c, TimeUtil.is_digit c = true) (TimeUtil.chars (TimeUtil.fmtHHMM s)).
Proof.
  assert (∀ k (pre : string),
            Forall (λ c, TimeUtil.is_digit c = false) (TimeUtil.chars pre) →
            TimeUtil.slice 0 k (TimeUtil.digits
              (String.append pre (TimeUtil.slice 0 k (TimeUtil.digits s))))
            = TimeUtil.slice 0 k (TimeUtil.digits s)) as Hfix.
  { intros k pre Hpre.
    destruct (chars_fmt k s) as [Hc Hd].
    rewrite <- (str_chars (String.append _ _)), chars_append.
    rewrite (slice_digits_fixed k _ _ Hpre Hd).
    - apply str_chars.
    - rewrite Hc, length_take. lia. }
  split; [|split; [|split; [|split]]].
  - unfold TimeUtil.fmtHHMM. apply (Hfix 4%nat EmptyString). constructor.
  - assert (TimeUtil.fmtFL s
            = if decide (TimeUtil.slice 0 3 (TimeUtil.digits s) = EmptyString)
              then EmptyString
              else String.append "FL" (TimeUtil.slice 0 3 (TimeUtil.digits s)))
      as -> by done.
    destruct (decide (TimeUtil.slice 0 3 (TimeUtil.digits s) = EmptyString))
      as [He|He]; [by vm_compute|].
    unfold TimeUtil.fmtFL.
    rewrite (Hfix 3%nat "FL") by (by repeat constructor).
    by rewrite decide_False.
  - assert (TimeUtil.fmtMach s
            = if decide (TimeUtil.slice 0 2 (TimeUtil.digits s) = EmptyString)
              then EmptyString
              else String.append "M" (TimeUtil.slice 0 2 (TimeUtil.digits s)))
      as -> by done.
    destruct (decide (TimeUtil.slice 0 2 (TimeUtil.digits s) = EmptyString))
      as [He|He]; [by vm_compute|].
    unfold TimeUtil.fmtMach.
    rewrite (Hfix 2%nat "M") by (by repeat constructor).
    by rewrite decide_False.
  - rewrite <- length_chars. unfold TimeUtil.fmtHHMM.
    rewrite (proj1 (chars_fmt 4 s)), length_take. lia.
  - apply chars_fmt.
Qed.

(** X23.  What the estimate field can hold never parses to a fraction: the
    parse of a [fmtHHMM] value is either nothing or an integer minute of
    the day, and it is an integer only for a value of four digits. *)
Theorem fmtHHMM_parses_whole s m :
  TimeUtil.parseHHMMToMinutes (TimeUtil.fmtHHMM s) = Some m →
  ∃ n, m = TimeUtil.Minutes n ∧ 0 ≤ n ≤ 1439 ∧
       String.length (TimeUtil.fmtHHMM s) = 4%nat.
Proof.
  unfold TimeUtil.parseHHMMToMinutes, TimeUtil.fmtHHMM.
  destruct (chars_fmt 4 s) as [_ Hd].
  set (v := TimeUtil.slice 0 4 (TimeUtil.digits s)) in *.
  rewrite <- (str_chars v), (trim_all_digits _ Hd), (str_chars v).
  intros Hm.
  assert (String.length v = 4%nat) as Hlen.
  { revert Hm. unfold TimeUtil.minutes_of. case_decide as Hl; [done|].
    intros _. first [exact Hl | by apply dec_stable]. }
  rewrite <- length_chars in Hlen.
  destruct (TimeUtil.chars v) as [|a [|b [|c [|d [|? ?]]]]] eqn:Hv; try done.
  assert (v = String a (String b (String c (String d EmptyString)))) as Hv'.
  { rewrite <- (str_chars v), Hv. done. }
  apply Forall_cons in Hd as [Ha Hd]. apply Forall_cons in Hd as [Hb Hd].
  apply Forall_cons in Hd as [Hc Hd]. apply Forall_cons in Hd as [Hdd _].
  revert Hm. rewrite Hv'. unfold TimeUtil.minutes_of. cbn.
  rewrite Ha, Hb, Hc, Hdd.
  destruct (_ || _) eqn:E; [done|]. intros [= <-].
  eexists. split; [done|].
  split; [|first [done | by rewrite <- length_chars, Hv]].
  unfold TimeUtil.out_of_range in E. lia.
Qed.

Lemma fmtHHMM_parses_whole_witness :
  TimeUtil.fmtHHMM "12:30z" = "1230" ∧
  ∃ n, TimeUtil.Minutes 750 = TimeUtil.Minutes n ∧ 0 ≤ n ≤ 1439 ∧
       String.length (TimeUtil.fmtHHMM "12:30z") = 4%nat.
Proof.
  split; [by vm_compute|].
  apply (fmtHHMM_parses_whole "12:30z" (TimeUtil.Minutes 750)). by vm_compute.
Defined.
